(** * KiwiQuiz: the quiz store and the game state of [App.jsx]

    A shallow embedding of the three source modules that carry the
    behaviour of the quiz:

    - [Utilities/Random.jsx]  ([Random]),
    - [Assets/quiz.js]        ([quizData], [sortedListAnswers]),
    - [App.jsx]               (the three [useState] cells, the handlers
                               [onClickHandlerNewGame], [handleAnswerChange],
                               [winLoseCalc], the rendered message and
                               the props handed to the dropdown),

    and of the parts of the test suites that drive them (the stand-ins
    for the dropdown of [Game.test.js] and [GameMechanics.test.js], two
    checks of [GameUtilities.test.js]).

    JavaScript values are modelled as follows.  Strings are [string]
    (the bytes of their UTF-8 encoding; [===] is [String.eqb] and the
    relational operators are the lexicographic comparison of
    [String.compare], which orders strings as the comparison of UTF-16
    code units does as long as no character lies outside the Basic
    Multilingual Plane, the case of every string of the corpus).  The
    value [undefined] is [None].  Array lengths
    and indices are [Z]: an array length is below 2^32, so the integer
    arithmetic on it is exact in binary64.  A number that is not an
    integer is the rational a binary64 value denotes: the number drawn
    by [Math.random()] is an explicit argument, handed over as a
    binary64 value, and its product with the length is rounded to
    binary64 as [*] rounds it.  [console.log] calls have no effect on
    the state and are left out. *)

From Stdlib Require Import String Ascii List ZArith QArith Qround Qpower Bool Lia Lqa.
From Stdlib Require Import Permutation Sorted OrderedTypeEx.
Import ListNotations.

Local Open Scope string_scope.
Local Open Scope Z_scope.

(* ================================================================= *)
(** ** Binary64, the numbers of JavaScript

    A finite binary64 value is a rational [m * 2^k] with [|m| < 2^53]
    and [k >= -1074].  The exponent is not bounded above: overflow
    starts at 2^1024, out of reach of the product of a number below 1
    with an array length. *)

Module Binary64.

Definition pow2 (k : Z) : QArith_base.Q := (2 ^ k)%Q.

(** The integer part of the binary logarithm of a positive rational:
    [2^(ilog2 x) <= x < 2^(ilog2 x + 1)]. *)
Definition ilog2 (x : QArith_base.Q) : Z :=
  let c := Z.log2 (Qnum x) - Z.log2 (Zpos (Qden x)) in
  if Qle_bool (pow2 c) x then c else c - 1.

(** The exponent of the unit in the last place of the binary64 values
    around [x]: 53 bits of precision, and the spacing of the subnormal
    numbers below 2^-1022. *)
Definition quantum (x : QArith_base.Q) : Z := Z.max (ilog2 x - 52) (-1074).

(** The integer nearest to [y], the even one of the two when [y] lies
    half way. *)
Definition nearest_even (y : QArith_base.Q) : Z :=
  let f := Qfloor y in
  match (y - inject_Z f ?= 1 # 2)%Q with
  | Lt => f
  | Gt => f + 1
  | Eq => if Z.even f then f else f + 1
  end.

(** Rounding to the nearest binary64 value, ties to even: the rounding
    of every arithmetic operation. *)
Definition round (x : QArith_base.Q) : QArith_base.Q :=
  match Qnum x with
  | Z0 => 0%Q
  | Zpos _ =>
      (inject_Z (nearest_even (x / pow2 (quantum x))) * pow2 (quantum x))%Q
  | Zneg _ =>
      (- (inject_Z (nearest_even (- x / pow2 (quantum (- x))))
          * pow2 (quantum (- x))))%Q
  end.

(** The binary64 value next to [x] towards zero; a binary64 value is
    its own. *)
Definition truncate (x : QArith_base.Q) : QArith_base.Q :=
  match Qnum x with
  | Z0 => 0%Q
  | Zpos _ =>
      (inject_Z (Qfloor (x / pow2 (quantum x))) * pow2 (quantum x))%Q
  | Zneg _ =>
      (- (inject_Z (Qfloor (- x / pow2 (quantum (- x))))
          * pow2 (quantum (- x))))%Q
  end.

End Binary64.

(* ================================================================= *)
(** ** The fragments of JavaScript the program relies on *)

Module JS.

(** [a < b], [a > b] and [a <= b] on strings.  ECMAScript evaluates
    [a > b] as [b < a] and [a <= b] as [!(b < a)]. *)
Definition lt (a b : string) : bool := String.ltb a b.
Definition gt (a b : string) : bool := lt b a.
Definition le (a b : string) : bool := negb (lt b a).

(** [ToString] applied to the operand of a string concatenation that
    may be [undefined]. *)
Definition ToString (v : option string) : string :=
  match v with
  | Some s => s
  | None => "undefined"
  end.

(** Truthiness of a string: every string but the empty one. *)
Definition truthy (s : string) : bool := negb (s =? "")%string.

(** [a[i]] for an integer [i]: [undefined] outside [0 .. a.length-1]. *)
Definition array_get {T : Type} (a : list T) (i : Z) : option T :=
  if i <? 0 then None else nth_error a (Z.to_nat i).

(** [Math.floor] on the rationals. *)
Definition Math_floor (x : QArith_base.Q) : Z := Qfloor x.

(** [Math.random()]: a binary64 value, at least 0 and below 1.  [rnd]
    is the real number the generator draws, and the call returns the
    binary64 value at [rnd] or next below it; every binary64 value of
    the range is returned on some draw, itself. *)
Definition Math_random (rnd : QArith_base.Q) : QArith_base.Q :=
  Binary64.truncate rnd.

(** [a * b] on numbers: the product, rounded to binary64. *)
Definition mul (a b : QArith_base.Q) : QArith_base.Q :=
  Binary64.round (a * b).

(** [Array.prototype.sort(comparefn)].  The algorithm is the engine's;
    the model is the insertion sort engines run on short arrays: every
    element in turn is the pivot, placed before the first element of
    the sorted prefix for which [comparefn(pivot, element) < 0]. *)
Fixpoint insert {T : Type} (comparefn : T -> T -> Z) (pivot : T)
         (prefix : list T) : list T :=
  match prefix with
  | [] => [pivot]
  | element :: rest =>
      if comparefn pivot element <? 0
      then pivot :: element :: rest
      else element :: insert comparefn pivot rest
  end.

Definition Array_sort {T : Type} (comparefn : T -> T -> Z) (a : list T)
  : list T :=
  fold_left (fun prefix pivot => insert comparefn pivot prefix) a [].

(** Errors a handler can raise.  The only one this program can meet is
    the [TypeError] of reading a property of [undefined]. *)
Inductive Error : Type :=
| TypeError (property : string).

Inductive Completion (T : Type) : Type :=
| Normal (v : T)
| Throw (e : Error).
Arguments Normal {T} v.
Arguments Throw {T} e.

End JS.

(* ================================================================= *)
(** ** Utilities/Random.jsx *)

(** [rnd] is the number drawn by the call of [Math.random()]. *)
Definition Random (rnd : QArith_base.Q) (length : Z) : Z :=
  let min := 0 in
  let max := length - 1 in (* remember to take one off the array for the element *)
  let rand :=
    JS.Math_floor (JS.mul (JS.Math_random rnd) (inject_Z (max - min + 1))) + min in
  rand.

(* ================================================================= *)
(** ** Assets/quiz.js *)

Module Quiz.

(** An element of [quizData]; the state cell [gameData] of the
    component holds an object of the same shape. *)
Record QuizEntry : Type := { Q : string; A : string }.

(** An element of the list handed to the dropdown. *)
Record AnswerOption : Type := { value : string; label : string }.

Definition quizData : list QuizEntry :=
  [ {| Q := "What is the capital of New Zealand";
       A := "Wellington" |};
    {| Q := "What is New Zealand’s official name in Maori";
       A := "Aotearoa" |};
    {| Q := "What currency is used in New Zealand";
       A := "New Zealand Dollar" |};
    {| Q := "What colours are on the flag of New Zealand";
       A := "Blue, red and white" |};
    {| Q := "What are the two main political parties in New Zealand";
       A := "National and Labour" |};
    {| Q := "What is the nickname given to New Zealanders";
       A := "Kiwi(s)" |};
    {| Q := "Who was the first European to arrive in New Zealand";
       A := "(+ Bonus point for his nationality) Abel Tasman, Dutch" |};
    {| Q := "Who is New Zealand’s monarch";
       A := "King Charles" |};
    {| Q := "How many official languages are there in NZ";
       A := "Two. Te reo Māori (the language Māori) and New Zealand Sign Language." |};
    {| Q := "What are the two national anthems of New Zealand";
       A := "(1 point each) “God defend New Zealand” and “God Save the Queen”" |};
    {| Q := "How tall is Aoraki Mount Cook";
       A := "3,754 metres" |};
    {| Q := "When did Captain Cook come to the islands";
       A := "1769" |};
    {| Q := "When did New Zealand gain independence from Britain";
       A := "1947" |};
    {| Q := "What animal can you find on a 1 dollar coin";
       A := "Kiwi" |};
    {| Q := "In 1893, New Zealand became the first country to do what";
       A := "Give women the right to vote" |};
    {| Q := "What is a Tuatara";
       A := "Reptile" |};
    {| Q := "When was NZ Rugby Football Union founded";
       A := "1892" |};
    {| Q := "When was New Zealand first Poppy Day";
       A := "1922" |};
    {| Q := "What is the name of the strait that separates the North and South Islands";
       A := "Cook Strait" |};
    {| Q := "What is the largest lake in New Zealand";
       A := "Lake Taupo" |};
    {| Q := "What is the largest city in New Zealand";
       A := "Auckland" |};
    {| Q := "What is the highest mountain peak in New Zealand";
       A := "Aoraki Mount Cook" |};
    {| Q := "How many regions are there in New Zealand";
       A := "16" |};
    {| Q := "What is the highest range of mountains in Australasia";
       A := "Southern Alps" |};
    {| Q := "What is the largest glacier in New Zealand";
       A := "The Tasman Glacier" |};
    {| Q := "On which island can you find the Canterbury Plains";
       A := "South Island" |};
    {| Q := "What is the longest river in New Zealand";
       A := "Waikato River" |};
    {| Q := "In which city can you find the Sky Tower";
       A := "Auckland" |} ].

(** The comparator handed to [sort]: [(a, b) => (a.value > b.value ? 1 : -1)]. *)
Definition comparefn (a b : AnswerOption) : Z :=
  if JS.gt (value a) (value b) then 1 else -1.

(** [sortedListAnswers], with the module-level binding [quizData] it
    reads made an argument (the test suites replace it). *)
Definition sortedListAnswers (quizData : list QuizEntry) : list AnswerOption :=
  (* map the data to a list *)
  let list := map (fun item => {| value := A item; label := A item |}) quizData in
  (* sort the list ascending *)
  let listSorted := JS.Array_sort comparefn list in
  listSorted.

End Quiz.

(* ================================================================= *)
(** ** App.jsx *)

Module App.
Import Quiz.

(** The three [useState] cells of the component. *)
Record State : Type := {
  gameData : QuizEntry;   (* current question and its answer *)
  answer : string;        (* the user's current answer *)
  winlose : string        (* the win or lose message *)
}.

(** [useState({ Q: "Start", A: "Start" })], [useState("")], [useState("")]. *)
Definition init : State :=
  {| gameData := {| Q := "Start"; A := "Start" |}; answer := ""; winlose := "" |}.

(** *** Event handlers

    A handler runs to completion and calls state setters on its way.
    React queues these calls and applies the whole queue in one
    update once the handler has returned.  A handler is therefore a
    computation that appends to the queue and completes normally or
    with an exception. *)

Inductive Update : Type :=
| SetGameData (g : QuizEntry)
| SetAnswer (s : string)
| SetWinlose (s : string).

Definition Handler (T : Type) : Type :=
  list Update -> JS.Completion T * list Update.

Definition ret {T : Type} (v : T) : Handler T :=
  fun queue => (JS.Normal v, queue).

Definition bind {T U : Type} (m : Handler T) (k : T -> Handler U) : Handler U :=
  fun queue =>
    match m queue with
    | (JS.Normal v, queue') => k v queue'
    | (JS.Throw e, queue') => (JS.Throw e, queue')
    end.

Definition throw {T : Type} (e : JS.Error) : Handler T :=
  fun queue => (JS.Throw e, queue).

Definition call (u : Update) : Handler unit :=
  fun queue => (JS.Normal tt, (queue ++ [u])%list).

Definition setGameData (g : QuizEntry) : Handler unit := call (SetGameData g).
Definition setAnswer (s : string) : Handler unit := call (SetAnswer s).
Definition setWinlose (s : string) : Handler unit := call (SetWinlose s).

Notation "x <- m ;; k" := (bind m (fun x => k))
  (at level 61, m at next level, right associativity).
Notation "m ;; k" := (bind m (fun _ => k))
  (at level 61, right associativity).

(** [o.Q] and [o.A] where [o] is an element read from the array: a
    [TypeError] when [o] is [undefined]. *)
Definition get_Q (o : option QuizEntry) : Handler string :=
  match o with
  | Some entry => ret (Q entry)
  | None => throw (JS.TypeError "Q")
  end.

Definition get_A (o : option QuizEntry) : Handler string :=
  match o with
  | Some entry => ret (A entry)
  | None => throw (JS.TypeError "A")
  end.

(** [onClickHandlerNewGame]; [allData] is [quizData] and [rnd] the
    number [Math.random()] draws inside [Random]. *)
Definition onClickHandlerNewGame (allData : list QuizEntry)
           (rnd : QArith_base.Q) : Handler unit :=
  (* reset the answer *)
  setAnswer "" ;;
  (* reset the winlose message *)
  setWinlose "" ;;
  (* get a new random index *)
  let rand := Random rnd (Z.of_nat (List.length allData)) in
  (* set the new question and answer using the random index *)
  q <- get_Q (JS.array_get allData rand) ;;
  a <- get_A (JS.array_get allData rand) ;;
  setGameData {| Q := q; A := a |} ;;
  (* gameDataForConsoleLogOnly = { Q: allData[rand].Q, A: allData[rand].A } *)
  _ <- get_Q (JS.array_get allData rand) ;;
  _ <- get_A (JS.array_get allData rand) ;;
  ret tt.

(** [winLoseCalc]; [gameData] is the cell the render closed over.  When
    the test of the outer [if] fails the function falls off its end
    and returns [undefined]. *)
Definition winLoseCalc (gameData : QuizEntry) (answerLet : string)
  : option string :=
  if negb (answerLet =? "undefined")%string then
    if (answerLet =? A gameData)%string then
      Some "win" (* correct answer *)
    else
      Some "lose" (* wrong answer *)
  else None.

(** [handleAnswerChange]; [e] is the option the dropdown passes. *)
Definition handleAnswerChange (gameData : QuizEntry) (e : AnswerOption)
  : Handler unit :=
  setAnswer (value e) ;;
  let answerLet := value e in
  setWinlose ("- you " ++ JS.ToString (winLoseCalc gameData answerLet)).

(** *** Applying the queued updates *)

Definition apply_update (st : State) (u : Update) : State :=
  match u with
  | SetGameData g => {| gameData := g; answer := answer st; winlose := winlose st |}
  | SetAnswer s => {| gameData := gameData st; answer := s; winlose := winlose st |}
  | SetWinlose s => {| gameData := gameData st; answer := answer st; winlose := s |}
  end.

Definition commit (st : State) (queue : list Update) : State :=
  fold_left apply_update queue st.

(** *** What the component renders from its state *)

(** The [h2]: [{gameData.Q}]. *)
Definition heading (st : State) : string := Q (gameData st).

(** The [h4]: [{answer ? "You selected " + answer + winlose : ""}]. *)
Definition message (st : State) : string :=
  if JS.truthy (answer st) then "You selected " ++ answer st ++ winlose st else "".

(** *** The component as a machine driven by user events

    The button carries [onClickHandlerNewGame]; the dropdown carries
    [handleAnswerChange] and offers the options of [answerData], that
    is of [sortedListAnswers()]. *)

Inductive Event : Type :=
| Click (rnd : QArith_base.Q)
| Change (e : AnswerOption).

Definition handler_of (allData : list QuizEntry) (st : State) (ev : Event)
  : Handler unit :=
  match ev with
  | Click rnd => onClickHandlerNewGame allData rnd
  | Change e => handleAnswerChange (gameData st) e
  end.

(** One event: run its handler on an empty queue, then apply the queue. *)
Definition dispatch (allData : list QuizEntry) (st : State) (ev : Event)
  : JS.Completion State :=
  match handler_of allData st ev [] with
  | (JS.Normal _, queue) => JS.Normal (commit st queue)
  | (JS.Throw err, _) => JS.Throw err
  end.

Definition option_eqb (a b : AnswerOption) : bool :=
  (value a =? value b)%string && (label a =? label b)%string.

(** The events the page can produce: [Math.random()] lies in [0, 1),
    and the dropdown passes one of the options it was given. *)
Definition possible (allData : list QuizEntry) (ev : Event) : bool :=
  match ev with
  | Click rnd => Qle_bool 0 rnd && negb (Qle_bool 1 rnd)
  | Change e => existsb (option_eqb e) (sortedListAnswers allData)
  end.

Fixpoint run (allData : list QuizEntry) (st : State) (evs : list Event)
  : JS.Completion State :=
  match evs with
  | [] => JS.Normal st
  | ev :: evs' =>
      match dispatch allData st ev with
      | JS.Normal st' => run allData st' evs'
      | JS.Throw err => JS.Throw err
      end
  end.

Inductive reachable (allData : list QuizEntry) : State -> Prop :=
| reach_init : reachable allData init
| reach_step st ev st' :
    reachable allData st ->
    possible allData ev = true ->
    dispatch allData st ev = JS.Normal st' ->
    reachable allData st'.

End App.

(* ================================================================= *)
(** ** More of JavaScript: [find], the default sort order, [Set] *)

Module JSArray.

(** [Array.prototype.find(predicate)]: the first element the predicate
    accepts, [undefined] when there is none. *)
Definition find {T : Type} (predicate : T -> bool) (a : list T) : option T :=
  List.find predicate a.

(** The order [sort()] follows when it is given no comparator, on
    strings: [-1] when [x < y], [1] when [y < x], [0] otherwise. *)
Definition SortCompare (x y : string) : Z :=
  if JS.lt x y then -1 else if JS.lt y x then 1 else 0.

(** [[...new Set(a)]]: the distinct elements of [a], each at the place
    of its first occurrence. *)
Definition Set_spread (a : list string) : list string :=
  fold_left
    (fun set x => if existsb (String.eqb x) set then set else (set ++ [x])%list)
    a [].

End JSArray.

(* ================================================================= *)
(** ** App.jsx: the props handed to the dropdown *)

Module AppSelect.
Import Quiz App.

(** [value={answerData.find((opt) => opt.value === answer) || null}];
    [None] is [null]. *)
Definition Select_value (answerData : list AnswerOption) (st : State)
  : option AnswerOption :=
  match JSArray.find (fun opt => (value opt =? answer st)%string) answerData with
  | Some opt => Some opt
  | None => None
  end.

(** [placeholder={answer !== "" ? answer : "Select an Answer"}]. *)
Definition Select_placeholder (st : State) : string :=
  if negb (answer st =? "")%string then answer st else "Select an Answer".

End AppSelect.

(* ================================================================= *)
(** ** The test suites that drive the quiz *)

Module Tests.
Import Quiz App.

(** A call [handleAnswerChange(e)] whose argument may be [undefined]:
    the first statement of the handler reads [e.value]. *)
Definition call_handleAnswerChange (gameData : QuizEntry)
           (e : option AnswerOption) : Handler unit :=
  match e with
  | Some opt => handleAnswerChange gameData opt
  | None => throw (JS.TypeError "value")
  end.

(** Game.test.js, the [onChange] of the [select] that stands for the
    dropdown; [target_value] is [e.target.value]:
    [const opt = options.find((o) => o.value === e.target.value);
     onChange?.(opt);] *)
Definition Game_select_onChange (options : list AnswerOption)
           (onChange : option AnswerOption -> Handler unit)
           (target_value : string) : Handler unit :=
  let opt := JSArray.find (fun o => (value o =? target_value)%string) options in
  onChange opt.

(** GameMechanics.test.js, the same handler with its guard:
    [if (selectedOption && onChange) { onChange(selectedOption); }] *)
Definition GameMechanics_select_onChange (options : list AnswerOption)
           (onChange : option AnswerOption -> Handler unit)
           (target_value : string) : Handler unit :=
  let selectedOption :=
    JSArray.find (fun opt => (value opt =? target_value)%string) options in
  match selectedOption with
  | Some opt => onChange (Some opt)
  | None => ret tt
  end.

(** GameUtilities.test.js, "questions are unique": the number of
    questions is the number of distinct questions. *)
Definition questions_are_unique (quizData : list QuizEntry) : bool :=
  let questions := map Q quizData in
  let uniqueQuestions := JSArray.Set_spread questions in
  Nat.eqb (List.length questions) (List.length uniqueQuestions).

(** GameUtilities.test.js, "answers are sorted alphabetically": the
    values of the options equal their copy sorted by [sort()]. *)
Definition answers_are_sorted_alphabetically (quizData : list QuizEntry) : bool :=
  let answers := sortedListAnswers quizData in
  let values := map value answers in
  let sortedValues := JS.Array_sort JSArray.SortCompare values in
  if list_eq_dec string_dec values sortedValues then true else false.

End Tests.

(* ================================================================= *)
(** * Properties *)

Import Binary64 Quiz App AppSelect Tests.

(** ** Random *)

(** *** Binary64 rounding *)

Local Open Scope Q_scope.

Lemma pow2_pos (k : Z) : 0 < pow2 k.
Proof. unfold pow2. apply Qpower_0_lt. reflexivity. Qed.

Lemma pow2_plus (a b : Z) : pow2 (a + b) == pow2 a * pow2 b.
Proof. unfold pow2. apply Qpower_plus. discriminate. Qed.

Lemma pow2_le (a b : Z) : (a <= b)%Z -> pow2 a <= pow2 b.
Proof. intros H. unfold pow2. apply Qpower_le_compat_l; [exact H | discriminate]. Qed.

Lemma pow2_lt_inv (a b : Z) : pow2 a < pow2 b -> (a < b)%Z.
Proof. intros H. apply (Qpower_lt_compat_l_inv 2); [exact H | reflexivity]. Qed.

Lemma pow2_Z (k : Z) : (0 <= k)%Z -> pow2 k == inject_Z (2 ^ k).
Proof. intros H. unfold pow2. now rewrite Zpower_Qpower. Qed.

Lemma Qnum_pos (x : QArith_base.Q) : (0 < Qnum x)%Z <-> 0 < x.
Proof. destruct x as [n d]. unfold Qlt. simpl. lia. Qed.

Lemma ilog2_spec (x : QArith_base.Q) :
  0 < x -> pow2 (ilog2 x) <= x /\ x < pow2 (ilog2 x + 1).
Proof.
  intros Hx. unfold ilog2.
  destruct x as [n d]. simpl Qnum. simpl Qden.
  assert (Hn : (0 < n)%Z) by (apply (Qnum_pos (n # d)); exact Hx).
  set (a := Z.log2 n). set (b := Z.log2 (Z.pos d)).
  assert (Ha0 : (0 <= a)%Z) by apply Z.log2_nonneg.
  assert (Hb0 : (0 <= b)%Z) by apply Z.log2_nonneg.
  destruct (Z.log2_spec n Hn) as [Ha1 Ha2]. fold a in Ha1, Ha2.
  destruct (Z.log2_spec (Z.pos d) ltac:(lia)) as [Hb1 Hb2]. fold b in Hb1, Hb2.
  assert (Hnd : n # d == inject_Z n / inject_Z (Z.pos d)) by apply Qmake_Qdiv.
  assert (Hd : 0 < inject_Z (Z.pos d)) by reflexivity.
  assert (Hlow : pow2 (a - b - 1) <= n # d).
  { rewrite Hnd. apply Qle_shift_div_l; [exact Hd|].
    apply Qle_trans with (pow2 (a - b - 1) * pow2 (b + 1)).
    - apply Qmult_le_l; [apply pow2_pos|].
      rewrite (pow2_Z (b + 1)) by lia. rewrite <- Zle_Qle.
      replace (b + 1)%Z with (Z.succ b) by lia. lia.
    - rewrite <- pow2_plus. replace (a - b - 1 + (b + 1))%Z with a by lia.
      rewrite (pow2_Z a) by lia. now rewrite <- Zle_Qle. }
  assert (Hhigh : n # d < pow2 (a - b + 1)).
  { rewrite Hnd. apply Qlt_shift_div_r; [exact Hd|].
    apply Qlt_le_trans with (pow2 (a - b + 1) * pow2 b).
    - rewrite <- pow2_plus. replace (a - b + 1 + b)%Z with (a + 1)%Z by lia.
      rewrite (pow2_Z (a + 1)) by lia. rewrite <- Zlt_Qlt.
      replace (a + 1)%Z with (Z.succ a) by lia. exact Ha2.
    - apply Qmult_le_l; [apply pow2_pos|].
      rewrite (pow2_Z b) by lia. now rewrite <- Zle_Qle. }
  destruct (Qle_bool (pow2 (a - b)) (n # d)) eqn:Hc.
  - apply Qle_bool_iff in Hc. split; [exact Hc | exact Hhigh].
  - split; [exact Hlow|].
    replace (a - b - 1 + 1)%Z with (a - b)%Z by lia.
    apply Qnot_le_lt. intros Hle. apply Qle_bool_iff in Hle. congruence.
Qed.

Lemma nearest_even_bounds (y : QArith_base.Q) :
  (Qfloor y <= nearest_even y <= Qfloor y + 1)%Z /\
  inject_Z (nearest_even y) <= y + (1 # 2) /\
  y - (1 # 2) <= inject_Z (nearest_even y).
Proof.
  pose proof (Qfloor_le y) as Hlo. pose proof (Qlt_floor y) as Hhi.
  rewrite inject_Z_plus in Hhi. change (inject_Z 1) with 1 in Hhi.
  assert (Hup : inject_Z (Qfloor y + 1) == inject_Z (Qfloor y) + 1)
    by (rewrite inject_Z_plus; reflexivity).
  unfold nearest_even.
  destruct (y - inject_Z (Qfloor y) ?= 1 # 2) eqn:Hc.
  - apply Qeq_alt in Hc.
    destruct (Z.even (Qfloor y)); (split; [lia|]); try rewrite Hup; split; lra.
  - apply Qlt_alt in Hc. split; [lia|]. split; lra.
  - apply Qgt_alt in Hc. split; [lia|]. rewrite Hup. split; lra.
Qed.

Lemma Qdiv_mult_cancel (x p : QArith_base.Q) : 0 < p -> x / p * p == x.
Proof. intros Hp. field. intros E. rewrite E in Hp. now apply Qlt_irrefl in Hp. Qed.

Lemma Qnum_zero (x : QArith_base.Q) : Qnum x = 0%Z -> x == 0.
Proof. destruct x as [n d]. simpl. intros ->. reflexivity. Qed.

Lemma round_pos (x : QArith_base.Q) :
  0 < x ->
  round x = inject_Z (nearest_even (x / pow2 (quantum x))) * pow2 (quantum x).
Proof.
  intros Hx. apply Qnum_pos in Hx. unfold round.
  destruct (Qnum x); [lia | reflexivity | lia].
Qed.

Lemma truncate_pos (x : QArith_base.Q) :
  0 < x ->
  truncate x = inject_Z (Qfloor (x / pow2 (quantum x))) * pow2 (quantum x).
Proof.
  intros Hx. apply Qnum_pos in Hx. unfold truncate.
  destruct (Qnum x); [lia | reflexivity | lia].
Qed.

Lemma Qfloor_nonneg (y : QArith_base.Q) : 0 <= y -> (0 <= Qfloor y)%Z.
Proof. intros H. apply Qfloor_resp_le in H. exact H. Qed.

Lemma Qdiv_pos_nonneg (x p : QArith_base.Q) : 0 < x -> 0 < p -> 0 <= x / p.
Proof.
  intros Hx Hp. apply Qle_shift_div_l; [exact Hp|]. rewrite Qmult_0_l.
  now apply Qlt_le_weak.
Qed.

Lemma round_error (x : QArith_base.Q) :
  0 < x ->
  0 <= round x /\
  round x <= x + pow2 (quantum x) * (1 # 2) /\
  x - pow2 (quantum x) * (1 # 2) <= round x.
Proof.
  intros Hx. rewrite (round_pos x Hx).
  set (p := pow2 (quantum x)). assert (Hp : 0 < p) by apply pow2_pos.
  destruct (nearest_even_bounds (x / p)) as [[Hf _] [Hhi Hlo]].
  pose proof (Qfloor_nonneg _ (Qdiv_pos_nonneg x p Hx Hp)) as Hf0.
  pose proof (Qdiv_mult_cancel x p Hp) as Hxp.
  set (n := nearest_even (x / p)) in *. split; [|split].
  - apply Qmult_le_0_compat; [|now apply Qlt_le_weak].
    rewrite <- (Zle_Qle 0). lia.
  - apply Qle_trans with ((x / p + (1 # 2)) * p).
    + apply Qmult_le_compat_r; [exact Hhi | now apply Qlt_le_weak].
    + rewrite Qmult_plus_distr_l, Hxp. rewrite (Qmult_comm (1 # 2) p). apply Qle_refl.
  - apply Qle_trans with ((x / p - (1 # 2)) * p).
    + setoid_replace ((x / p - (1 # 2)) * p) with (x / p * p - p * (1 # 2)) by ring.
      rewrite Hxp. apply Qle_refl.
    + apply Qmult_le_compat_r; [exact Hlo | now apply Qlt_le_weak].
Qed.

Lemma truncate_error (x : QArith_base.Q) :
  0 < x ->
  0 <= truncate x /\ truncate x <= x /\ x - pow2 (quantum x) < truncate x.
Proof.
  intros Hx. rewrite (truncate_pos x Hx).
  set (p := pow2 (quantum x)). assert (Hp : 0 < p) by apply pow2_pos.
  pose proof (Qfloor_le (x / p)) as Hlo. pose proof (Qlt_floor (x / p)) as Hhi.
  rewrite inject_Z_plus in Hhi. change (inject_Z 1) with 1 in Hhi.
  pose proof (Qfloor_nonneg _ (Qdiv_pos_nonneg x p Hx Hp)) as Hf0.
  pose proof (Qdiv_mult_cancel x p Hp) as Hxp.
  set (f := Qfloor (x / p)) in *. split; [|split].
  - apply Qmult_le_0_compat; [|now apply Qlt_le_weak].
    rewrite <- (Zle_Qle 0). lia.
  - apply Qle_trans with (x / p * p); [|rewrite Hxp; apply Qle_refl].
    apply Qmult_le_compat_r; [exact Hlo | now apply Qlt_le_weak].
  - apply Qlt_le_trans with ((inject_Z f + 1) * p - p).
    + apply Qplus_lt_l with (z := p).
      setoid_replace ((inject_Z f + 1) * p - p + p) with ((inject_Z f + 1) * p) by ring.
      setoid_replace (x - p + p) with x by ring.
      apply Qle_lt_trans with (x / p * p); [rewrite Hxp; apply Qle_refl|].
      apply Qmult_lt_compat_r; [exact Hp | exact Hhi].
    + setoid_replace ((inject_Z f + 1) * p - p) with (inject_Z f * p) by ring.
      apply Qle_refl.
Qed.

Lemma quantum_bound (x : QArith_base.Q) :
  0 < x -> pow2 (quantum x) <= x * pow2 (-52) + pow2 (-1074).
Proof.
  intros Hx. destruct (ilog2_spec x Hx) as [Hlo _].
  pose proof (pow2_pos (-1074)) as Hs. pose proof (pow2_pos (-52)) as Hu.
  unfold quantum.
  destruct (Z.max_spec (ilog2 x - 52) (-1074)) as [[_ ->]|[_ ->]].
  - rewrite <- (Qplus_0_l (pow2 (-1074))) at 1.
    apply Qplus_le_compat; [|apply Qle_refl].
    apply Qmult_le_0_compat; now apply Qlt_le_weak.
  - replace (ilog2 x - 52)%Z with (ilog2 x + -52)%Z by lia. rewrite pow2_plus.
    rewrite <- (Qplus_0_r (pow2 (ilog2 x) * pow2 (-52))).
    apply Qplus_le_compat; [|now apply Qlt_le_weak].
    apply Qmult_le_compat_r; [exact Hlo | now apply Qlt_le_weak].
Qed.

Lemma truncate_below_one (rnd : QArith_base.Q) :
  0 <= rnd -> rnd < 1 ->
  0 <= truncate rnd /\ truncate rnd <= rnd /\ truncate rnd <= 1 - pow2 (-53).
Proof.
  intros H0 H1.
  assert (Hu : pow2 (-53) == 1 # 9007199254740992) by reflexivity.
  destruct (Qnum rnd) eqn:Hn.
  - unfold truncate. rewrite Hn. pose proof (Qnum_zero rnd Hn) as Hz.
    split; [apply Qle_refl|]. split; [now rewrite Hz|]. rewrite Hu. discriminate.
  - assert (Hx : 0 < rnd) by (apply Qnum_pos; lia).
    destruct (truncate_error rnd Hx) as [Ht0 [Htle _]].
    split; [exact Ht0|]. split; [exact Htle|].
    destruct (ilog2_spec rnd Hx) as [Hlo Hhi].
    assert (He : (ilog2 rnd < 0)%Z).
    { apply pow2_lt_inv. eapply Qle_lt_trans; [exact Hlo|]. exact H1. }
    destruct (Z.eq_dec (ilog2 rnd) (-1)) as [Heq|Hneq].
    + assert (Hq : quantum rnd = (-53)%Z) by (unfold quantum; rewrite Heq; reflexivity).
      rewrite (truncate_pos rnd Hx), Hq in *.
      set (f := Qfloor (rnd / pow2 (-53))) in *.
      assert (Hf : (f < 9007199254740992)%Z).
      { rewrite Zlt_Qlt.
        assert (Hlt : inject_Z f * pow2 (-53) < 1) by (eapply Qle_lt_trans; eassumption).
        rewrite Hu in Hlt.
        change (inject_Z 9007199254740992) with (9007199254740992 # 1). lra. }
      assert (Hf' : inject_Z f <= inject_Z 9007199254740991) by (rewrite <- Zle_Qle; lia).
      rewrite Hu. change (inject_Z 9007199254740991) with (9007199254740991 # 1) in Hf'. lra.
    + assert (Hle : pow2 (ilog2 rnd + 1) <= pow2 (-1)) by (apply pow2_le; lia).
      assert (Hh : pow2 (-1) == 1 # 2) by reflexivity.
      rewrite Hh in Hle. rewrite Hu. lra.
  - exfalso. assert (rnd < 0) by (destruct rnd; unfold Qlt; simpl in *; subst; lia).
    lra.
Qed.

Local Close Scope Q_scope.

(** *** The index is in range *)

Lemma Random_unfold (rnd : QArith_base.Q) (L : Z) :
  Random rnd L =
  Qfloor (Binary64.round (Binary64.truncate rnd * inject_Z L)).
Proof.
  unfold Random, JS.Math_floor, JS.mul, JS.Math_random.
  replace (L - 1 - 0 + 1) with L by lia. lia.
Qed.

Lemma Random_bounds (rnd : QArith_base.Q) (L : Z) :
  (0 <= rnd)%Q -> (rnd < 1)%Q -> 1 <= L -> 0 <= Random rnd L < L.
Proof.
  intros H0 H1 HL. rewrite Random_unfold.
  destruct (truncate_below_one rnd H0 H1) as [Hd0 [_ Hd1]].
  set (d := Binary64.truncate rnd) in *.
  assert (HLq : (1 <= inject_Z L)%Q) by (rewrite <- (Zle_Qle 1); exact HL).
  assert (Hx0 : (0 <= d * inject_Z L)%Q) by (apply Qmult_le_0_compat; lra).
  assert (Hx1 : (d * inject_Z L <= (1 - Binary64.pow2 (-53)) * inject_Z L)%Q)
    by (apply Qmult_le_compat_r; lra).
  set (x := (d * inject_Z L)%Q) in *.
  assert (Hr : (0 <= Binary64.round x /\ Binary64.round x < inject_Z L)%Q).
  { destruct (Qnum x) eqn:Hn.
    - unfold Binary64.round. rewrite Hn. split; lra.
    - assert (Hx : (0 < x)%Q) by (apply Qnum_pos; lia).
      destruct (round_error x Hx) as [Hr0 [Hhi _]]. split; [exact Hr0|].
      pose proof (quantum_bound x Hx) as Hq.
      assert (Hu : (Binary64.pow2 (-53) == 1 # 9007199254740992)%Q) by reflexivity.
      assert (Hu2 : (Binary64.pow2 (-52) == 1 # 4503599627370496)%Q) by reflexivity.
      assert (Hs : (Binary64.pow2 (-1074) < 1 # 81129638414606681695789005144064)%Q)
        by (vm_compute; reflexivity).
      rewrite Hu in Hx1. rewrite Hu2 in Hq.
      set (ulp := Binary64.pow2 (Binary64.quantum x)) in *.
      set (s := Binary64.pow2 (-1074)) in *.
      lra.
    - exfalso.
      assert ((x < 0)%Q) by (destruct x; unfold Qlt; simpl in *; subst; lia).
      lra. }
  destruct Hr as [Hr0 Hr1]. split.
  - now apply Qfloor_nonneg.
  - rewrite Zlt_Qlt. eapply Qle_lt_trans; [apply Qfloor_le | exact Hr1].
Qed.

Lemma array_get_Random (rnd : QArith_base.Q) :
  (0 <= rnd)%Q -> (rnd < 1)%Q ->
  forall (T : Type) (a : list T),
    a <> [] ->
    exists x, JS.array_get a (Random rnd (Z.of_nat (List.length a))) = Some x.
Proof.
  intros H0 H1 T a Hne.
  assert (Hlen : 1 <= Z.of_nat (List.length a)).
  { destruct a; [congruence | simpl List.length; lia]. }
  pose proof (Random_bounds rnd _ H0 H1 Hlen) as [Hlo Hhi].
  unfold JS.array_get.
  destruct (Z.ltb_spec (Random rnd (Z.of_nat (List.length a))) 0) as [Hneg|_]; [lia|].
  destruct (nth_error a (Z.to_nat (Random rnd (Z.of_nat (List.length a))))) as [x|] eqn:Hnth.
  - now exists x.
  - apply nth_error_None in Hnth. lia.
Qed.

(** C3.  For every length [L >= 1] and every draw [0 <= rnd < 1],
    [Random] returns an integer between [0] and [L - 1] inclusive, and
    for the length 1 it returns 0 whatever the draw. *)
Theorem Random_in_range (rnd : QArith_base.Q) (L : Z) :
  1 <= L -> (0 <= rnd)%Q -> (rnd < 1)%Q ->
  0 <= Random rnd L <= L - 1 /\ Random rnd 1 = 0.
Proof.
  intros HL H0 H1. split.
  - pose proof (Random_bounds rnd L H0 H1 HL). lia.
  - pose proof (Random_bounds rnd 1 H0 H1 ltac:(lia)). lia.
Qed.

Lemma Random_in_range_witness :
  0 <= Random (27 # 28) 28 <= 28 - 1 /\ Random (27 # 28) 1 = 0.
Proof.
  apply (Random_in_range (27 # 28) 28).
  - lia.
  - unfold Qle; simpl; lia.
  - unfold Qlt; simpl; lia.
Defined.

(** ** Handlers *)

Lemma winLoseCalc_defined (g : QuizEntry) (choice : string) :
  choice <> "undefined" ->
  winLoseCalc g choice = Some (if (choice =? A g)%string then "win" else "lose").
Proof.
  intros Hne. unfold winLoseCalc.
  apply String.eqb_neq in Hne. rewrite Hne. simpl.
  now destruct (choice =? A g)%string.
Qed.

Lemma dispatch_Change (allData : list QuizEntry) (st : State) (e : AnswerOption) :
  dispatch allData st (Change e) =
  JS.Normal {| gameData := gameData st;
               answer := value e;
               winlose := "- you " ++ JS.ToString (winLoseCalc (gameData st) (value e)) |}.
Proof. reflexivity. Qed.

Lemma onClickHandlerNewGame_queue (allData : list QuizEntry)
      (rnd : QArith_base.Q) (entry : QuizEntry) (queue : list Update) :
  JS.array_get allData (Random rnd (Z.of_nat (List.length allData))) = Some entry ->
  onClickHandlerNewGame allData rnd queue =
  (JS.Normal tt,
   (queue ++ [SetAnswer ""; SetWinlose "";
              SetGameData {| Q := Q entry; A := A entry |}])%list).
Proof.
  intros Hget. unfold onClickHandlerNewGame, bind, setAnswer, setWinlose,
    setGameData, call. rewrite Hget. simpl.
  now rewrite <- !app_assoc.
Qed.

Lemma onClickHandlerNewGame_throws (allData : list QuizEntry)
      (rnd : QArith_base.Q) (queue : list Update) :
  JS.array_get allData (Random rnd (Z.of_nat (List.length allData))) = None ->
  onClickHandlerNewGame allData rnd queue =
  (JS.Throw (JS.TypeError "Q"), (queue ++ [SetAnswer ""; SetWinlose ""])%list).
Proof.
  intros Hget. unfold onClickHandlerNewGame, bind, setAnswer, setWinlose, call.
  rewrite Hget. simpl. now rewrite <- !app_assoc.
Qed.

Lemma dispatch_Click (allData : list QuizEntry) (st : State)
      (rnd : QArith_base.Q) (entry : QuizEntry) :
  JS.array_get allData (Random rnd (Z.of_nat (List.length allData))) = Some entry ->
  dispatch allData st (Click rnd) =
  JS.Normal {| gameData := {| Q := Q entry; A := A entry |};
               answer := ""; winlose := "" |}.
Proof.
  intros Hget. unfold dispatch, handler_of.
  now rewrite (onClickHandlerNewGame_queue _ _ entry [] Hget).
Qed.

(** C1, evaluated where the code departs from it.  On a corpus with an
    entry whose answer is the word "undefined", a click puts that entry
    on display and the dropdown offers the answer.  Choosing it, the
    choice equals the current correct answer, and yet [winLoseCalc]
    returns [undefined] instead of "win": its guard compares the choice
    with the string "undefined".  The selected answer is stored as the
    claim says, and the stored message is "- you undefined". *)
Lemma literal_undefined_is_not_scored :
  let corpus := [ {| Q := "Which word stands for a missing value in JavaScript";
                       A := "undefined" |};
                    {| Q := "What is the capital of New Zealand";
                       A := "Wellington" |} ] in
  let literal := {| value := "undefined"; label := "undefined" |} in
  let question :=
    {| gameData := {| Q := "Which word stands for a missing value in JavaScript";
                      A := "undefined" |};
       answer := ""; winlose := "" |} in
  forallb (possible corpus) [Click 0; Change literal] = true /\
  run corpus init [Click 0] = JS.Normal question /\
  (value literal =? A (gameData question))%string = true /\
  winLoseCalc (gameData question) (value literal) = None /\
  dispatch corpus question (Change literal) =
    JS.Normal {| gameData := gameData question; answer := "undefined";
                 winlose := "- you undefined" |}.
Proof. repeat split. Qed.

(** C2.  Whatever the prior state, a click on the button with a
    non-empty corpus and a draw in [0, 1) picks an entry of the corpus,
    queues the reset of the answer, the reset of the message and the
    new question in one and the same queue, and the state after the
    update holds the picked entry's question and answer with an empty
    answer and an empty message: the page shows the new question and
    no message. *)
Theorem onClickHandlerNewGame_resets
        (allData : list QuizEntry) (rnd : QArith_base.Q) (st : State) :
  allData <> [] -> (0 <= rnd)%Q -> (rnd < 1)%Q ->
  exists entry st',
    JS.array_get allData (Random rnd (Z.of_nat (List.length allData))) = Some entry /\
    onClickHandlerNewGame allData rnd [] =
      (JS.Normal tt,
       [SetAnswer ""; SetWinlose ""; SetGameData {| Q := Q entry; A := A entry |}]) /\
    dispatch allData st (Click rnd) = JS.Normal st' /\
    st' = {| gameData := {| Q := Q entry; A := A entry |};
             answer := ""; winlose := "" |} /\
    heading st' = Q entry /\
    message st' = "".
Proof.
  intros Hne H0 H1.
  destruct (array_get_Random rnd H0 H1 _ allData Hne) as [entry Hget].
  exists entry. eexists. split; [exact Hget|]. split; [|split; [|split; [reflexivity|]]].
  - exact (onClickHandlerNewGame_queue allData rnd entry [] Hget).
  - exact (dispatch_Click allData st rnd entry Hget).
  - split; reflexivity.
Qed.

Lemma onClickHandlerNewGame_resets_witness :
  exists entry st',
    JS.array_get quizData (Random (1 # 2) (Z.of_nat (List.length quizData))) = Some entry /\
    onClickHandlerNewGame quizData (1 # 2) [] =
      (JS.Normal tt,
       [SetAnswer ""; SetWinlose ""; SetGameData {| Q := Q entry; A := A entry |}]) /\
    dispatch quizData
             {| gameData := {| Q := "What is a Tuatara"; A := "Reptile" |};
                answer := "Kiwi"; winlose := "- you lose" |}
             (Click (1 # 2)) = JS.Normal st' /\
    st' = {| gameData := {| Q := Q entry; A := A entry |};
             answer := ""; winlose := "" |} /\
    heading st' = Q entry /\
    message st' = "".
Proof.
  apply (onClickHandlerNewGame_resets quizData (1 # 2)).
  - discriminate.
  - unfold Qle; simpl; lia.
  - unfold Qlt; simpl; lia.
Defined.

(** C4 (as amended).  With an empty corpus nothing is guarded:
    [Random] returns the index 0 for every draw and reports no error,
    the entry read at that index is [undefined], and the click handler
    ends in the [TypeError] of reading [Q] from it, after it has queued
    the two resets and before it queues a question. *)
Theorem empty_corpus_unguarded (rnd : QArith_base.Q) (st : State) :
  Random rnd (Z.of_nat (List.length (@nil QuizEntry))) = 0 /\
  JS.array_get (@nil QuizEntry) (Random rnd 0) = None /\
  onClickHandlerNewGame [] rnd [] =
    (JS.Throw (JS.TypeError "Q"), [SetAnswer ""; SetWinlose ""]) /\
  dispatch [] st (Click rnd) = JS.Throw (JS.TypeError "Q").
Proof.
  assert (HR : Random rnd 0 = 0).
  { rewrite Random_unfold. unfold Binary64.round.
    replace (Qnum (Binary64.truncate rnd * inject_Z 0)) with 0
      by (simpl; lia).
    reflexivity. }
  assert (Hget : JS.array_get (@nil QuizEntry)
                   (Random rnd (Z.of_nat (List.length (@nil QuizEntry)))) = None).
  { simpl. now rewrite HR. }
  pose proof (onClickHandlerNewGame_throws [] rnd [] Hget) as Hthrow.
  simpl in Hthrow. repeat split.
  - exact HR.
  - now rewrite HR.
  - exact Hthrow.
  - unfold dispatch, handler_of. now rewrite Hthrow.
Qed.

(** C4, the claim as stated fails: on the empty corpus and the draw 0
    the index function answers 0 as it does for a corpus of one entry,
    the entry picked is [undefined], and the click is left to fail with
    a [TypeError]. *)
Lemma empty_corpus_click_fails :
  Random 0 0 = Random 0 1 /\
  JS.array_get (@nil QuizEntry) (Random 0 0) = None /\
  dispatch [] init (Click 0) = JS.Throw (JS.TypeError "Q").
Proof. repeat split. Qed.

(** ** Sorting *)

Section SortFacts.
Context {T : Type}.
Variable comparefn : T -> T -> Z.

Lemma insert_Permutation (pivot : T) (prefix : list T) :
  Permutation (JS.insert comparefn pivot prefix) (pivot :: prefix).
Proof.
  induction prefix as [|element rest IH]; simpl.
  - apply Permutation_refl.
  - destruct (comparefn pivot element <? 0).
    + apply Permutation_refl.
    + eapply perm_trans; [apply perm_skip, IH | apply perm_swap].
Qed.

Lemma fold_insert_Permutation (a prefix : list T) :
  Permutation
    (fold_left (fun prefix pivot => JS.insert comparefn pivot prefix) a prefix)
    (prefix ++ a).
Proof.
  revert prefix. induction a as [|pivot a IH]; intros prefix; simpl.
  - now rewrite app_nil_r.
  - eapply perm_trans; [apply IH|].
    eapply perm_trans;
      [apply Permutation_app_tail, insert_Permutation|].
    simpl. apply Permutation_cons_app. apply Permutation_refl.
Qed.

Lemma Array_sort_Permutation (a : list T) :
  Permutation (JS.Array_sort comparefn a) a.
Proof. exact (fold_insert_Permutation a []). Qed.

(** Sortedness, for an order [R] the sign of the comparator decides. *)
Variable R : T -> T -> Prop.
Hypothesis comparefn_neg : forall p e, (comparefn p e <? 0) = true -> R p e.
Hypothesis comparefn_nonneg : forall p e, (comparefn p e <? 0) = false -> R e p.

Lemma insert_HdRel (x pivot : T) (prefix : list T) :
  HdRel R x prefix -> R x pivot -> HdRel R x (JS.insert comparefn pivot prefix).
Proof.
  intros Hhd Hx. destruct prefix as [|element rest]; simpl.
  - now constructor.
  - inversion Hhd; subst.
    destruct (comparefn pivot element <? 0); now constructor.
Qed.

Lemma insert_Sorted (pivot : T) (prefix : list T) :
  Sorted R prefix -> Sorted R (JS.insert comparefn pivot prefix).
Proof.
  induction 1 as [|element rest Hsorted IH Hhd]; simpl.
  - repeat constructor.
  - destruct (comparefn pivot element <? 0) eqn:Hcmp.
    + constructor; [now constructor|].
      constructor. now apply comparefn_neg.
    + constructor; [exact IH|].
      apply insert_HdRel; [exact Hhd|]. now apply comparefn_nonneg.
Qed.

Lemma fold_insert_Sorted (a prefix : list T) :
  Sorted R prefix ->
  Sorted R (fold_left (fun prefix pivot => JS.insert comparefn pivot prefix) a prefix).
Proof.
  revert prefix. induction a as [|pivot a IH]; intros prefix Hs; simpl.
  - exact Hs.
  - apply IH. now apply insert_Sorted.
Qed.

Lemma Array_sort_Sorted (a : list T) : Sorted R (JS.Array_sort comparefn a).
Proof. apply fold_insert_Sorted. constructor. Qed.

Lemma Sorted_adjacent (l : list T) (i : nat) (a b : T) :
  Sorted R l -> nth_error l i = Some a -> nth_error l (S i) = Some b -> R a b.
Proof.
  intros Hs. revert i. induction Hs as [|x l Hs IH Hhd]; intros i Ha Hb.
  - destruct i; discriminate.
  - destruct i as [|i].
    + simpl in Ha, Hb. injection Ha as ->.
      destruct l as [|y l]; [discriminate|].
      simpl in Hb. injection Hb as ->. now inversion Hhd.
    + simpl in Ha. apply (IH i Ha). exact Hb.
Qed.
End SortFacts.

(** [<] on strings is asymmetric, so [a > b] entails [b <= a]. *)
Lemma JS_gt_le (a b : string) : JS.gt a b = true -> JS.le b a = true.
Proof.
  unfold JS.gt, JS.le, JS.lt, String.ltb.
  rewrite (String.compare_antisym b a).
  destruct (String.compare a b); simpl; congruence.
Qed.

(** The [<=] of ECMAScript is the [leb] of the library. *)
Lemma JS_le_leb (a b : string) : JS.le a b = String.leb a b.
Proof.
  unfold JS.le, JS.lt, String.ltb, String.leb.
  rewrite (String.compare_antisym a b).
  now destruct (String.compare b a).
Qed.

Lemma comparefn_neg_le (p e : AnswerOption) :
  (comparefn p e <? 0) = true -> JS.le (value p) (value e) = true.
Proof.
  unfold comparefn, JS.le, JS.gt.
  destruct (JS.lt (value e) (value p)); simpl; [discriminate | reflexivity].
Qed.

Lemma comparefn_nonneg_le (p e : AnswerOption) :
  (comparefn p e <? 0) = false -> JS.le (value e) (value p) = true.
Proof.
  unfold comparefn. intros H. apply JS_gt_le.
  destruct (JS.gt (value p) (value e)); [reflexivity | discriminate].
Qed.

Lemma sortedListAnswers_Sorted (corpus : list QuizEntry) :
  Sorted (fun a b => JS.le (value a) (value b) = true) (sortedListAnswers corpus).
Proof.
  unfold sortedListAnswers.
  apply Array_sort_Sorted; [apply comparefn_neg_le | apply comparefn_nonneg_le].
Qed.

Lemma sortedListAnswers_Permutation (corpus : list QuizEntry) :
  Permutation (sortedListAnswers corpus)
              (map (fun item => {| value := A item; label := A item |}) corpus).
Proof. unfold sortedListAnswers. apply Array_sort_Permutation. Qed.

Lemma sortedListAnswers_values (corpus : list QuizEntry) :
  Permutation (map value (sortedListAnswers corpus)) (map A corpus).
Proof.
  eapply perm_trans; [apply Permutation_map, sortedListAnswers_Permutation|].
  rewrite map_map. simpl. apply Permutation_refl.
Qed.

(** C5.  The list [sortedListAnswers] returns is ascending: whatever
    the corpus, any two neighbours [a], [b] of the result (at the
    indices [i] and [i + 1]) satisfy [a.value <= b.value]. *)
Theorem sortedListAnswers_ascending
        (corpus : list QuizEntry) (i : nat) (a b : AnswerOption) :
  nth_error (sortedListAnswers corpus) i = Some a ->
  nth_error (sortedListAnswers corpus) (S i) = Some b ->
  JS.le (value a) (value b) = true.
Proof.
  intros Ha Hb.
  exact (Sorted_adjacent (fun a b => JS.le (value a) (value b) = true)
           _ i a b (sortedListAnswers_Sorted corpus) Ha Hb).
Qed.

Lemma sortedListAnswers_ascending_witness :
  JS.le "Kiwi" "Kiwi(s)" = true.
Proof.
  apply (sortedListAnswers_ascending quizData 16
           {| value := "Kiwi"; label := "Kiwi" |}
           {| value := "Kiwi(s)"; label := "Kiwi(s)" |});
    reflexivity.
Defined.

(** C6.  Whatever the corpus, [sortedListAnswers] returns a
    rearrangement of the list holding, for each entry in turn, the
    option whose value and label are that entry's answer: the result is
    as long as the corpus, its values are the answers of the corpus
    with their multiplicities, every option has its value as its label,
    and every entry's answer is the value of some option.  On
    [quizData] the answer "Auckland", given by two entries, is the value
    of two options. *)
Theorem sortedListAnswers_one_per_entry (corpus : list QuizEntry) :
  Permutation (sortedListAnswers corpus)
              (map (fun item => {| value := A item; label := A item |}) corpus) /\
  List.length (sortedListAnswers corpus) = List.length corpus /\
  Permutation (map value (sortedListAnswers corpus)) (map A corpus) /\
  Forall (fun o => label o = value o) (sortedListAnswers corpus) /\
  Forall (fun entry => exists o, In o (sortedListAnswers corpus) /\ value o = A entry)
         corpus /\
  count_occ string_dec (map A quizData) "Auckland" = 2%nat /\
  count_occ string_dec (map value (sortedListAnswers quizData)) "Auckland" = 2%nat.
Proof.
  pose proof (sortedListAnswers_Permutation corpus) as Hperm.
  split; [exact Hperm|]. split; [|split; [|split; [|split]]].
  - rewrite (Permutation_length Hperm). apply length_map.
  - apply sortedListAnswers_values.
  - apply Forall_forall. intros o Ho.
    apply (Permutation_in _ Hperm) in Ho. apply in_map_iff in Ho.
    destruct Ho as [item [<- _]]. reflexivity.
  - apply Forall_forall. intros entry Hin.
    exists {| value := A entry; label := A entry |}. split; [|reflexivity].
    apply (Permutation_in _ (Permutation_sym Hperm)).
    apply in_map_iff. now exists entry.
  - split; reflexivity.
Qed.

(** ** The reachable states *)

Lemma dispatch_Click_inv (allData : list QuizEntry) (st st' : State)
      (rnd : QArith_base.Q) :
  dispatch allData st (Click rnd) = JS.Normal st' ->
  exists entry,
    JS.array_get allData (Random rnd (Z.of_nat (List.length allData))) = Some entry /\
    st' = {| gameData := {| Q := Q entry; A := A entry |}; answer := ""; winlose := "" |}.
Proof.
  intros Hd.
  destruct (JS.array_get allData (Random rnd (Z.of_nat (List.length allData))))
    as [entry|] eqn:Hget.
  - exists entry. split; [reflexivity|].
    rewrite (dispatch_Click allData st rnd entry Hget) in Hd. now injection Hd.
  - unfold dispatch, handler_of in Hd.
    rewrite (onClickHandlerNewGame_throws allData rnd [] Hget) in Hd. discriminate.
Qed.

Lemma possible_Change_In (allData : list QuizEntry) (e : AnswerOption) :
  possible allData (Change e) = true -> In (value e) (map A allData).
Proof.
  simpl. intros Hex. apply existsb_exists in Hex. destruct Hex as [o [Hin Heq]].
  unfold option_eqb in Heq. apply andb_true_iff in Heq. destruct Heq as [Hv _].
  apply String.eqb_eq in Hv. rewrite Hv.
  apply (Permutation_in _ (sortedListAnswers_values allData)).
  now apply in_map.
Qed.

(** The question on display and its answer come from one entry. *)
Lemma reachable_gameData (allData : list QuizEntry) (st : State) :
  reachable allData st ->
  gameData st = {| Q := "Start"; A := "Start" |} \/
  exists i entry,
    JS.array_get allData i = Some entry /\
    gameData st = {| Q := Q entry; A := A entry |}.
Proof.
  induction 1 as [|st ev st' Hreach IH Hposs Hd].
  - now left.
  - destruct ev as [rnd|e].
    + apply dispatch_Click_inv in Hd. destruct Hd as [entry [Hget ->]].
      right. now exists (Random rnd (Z.of_nat (List.length allData))), entry.
    + rewrite dispatch_Change in Hd. injection Hd as <-. exact IH.
Qed.

(** The message cell is empty with the answer cell, and otherwise holds
    the evaluation of the answer cell against the question on display. *)
Lemma reachable_winlose (allData : list QuizEntry) (st : State) :
  reachable allData st ->
  (answer st = "" /\ winlose st = "") \/
  (In (answer st) (map A allData) /\
   winlose st = "- you " ++ JS.ToString (winLoseCalc (gameData st) (answer st))).
Proof.
  induction 1 as [|st ev st' Hreach IH Hposs Hd].
  - now left.
  - destruct ev as [rnd|e].
    + apply dispatch_Click_inv in Hd. destruct Hd as [entry [_ ->]]. now left.
    + rewrite dispatch_Change in Hd. injection Hd as <-. right. simpl.
      split; [now apply possible_Change_In | reflexivity].
Qed.

Lemma reachable_run (allData : list QuizEntry) (evs : list Event) (st0 st : State) :
  reachable allData st0 ->
  forallb (possible allData) evs = true ->
  run allData st0 evs = JS.Normal st ->
  reachable allData st.
Proof.
  revert st0. induction evs as [|ev evs IH]; intros st0 Hreach Hposs Hrun.
  - simpl in Hrun. now injection Hrun as <-.
  - simpl in Hposs, Hrun. apply andb_true_iff in Hposs. destruct Hposs as [Hev Hevs].
    destruct (dispatch allData st0 ev) as [st1|err] eqn:Hd; [|discriminate].
    apply (IH st1); [|assumption|assumption].
    now apply (reach_step allData st0 ev st1).
Qed.

(** Facts read off the shipped corpus. *)
Lemma quizData_answers_nonempty (a : string) :
  In a (map A quizData) -> a <> "".
Proof.
  assert (H : forallb (fun a => negb (a =? "")%string) (map A quizData) = true)
    by reflexivity.
  intros Hin Heq. rewrite forallb_forall in H. specialize (H a Hin).
  subst a. discriminate.
Qed.

Lemma quizData_answers_not_undefined (a : string) :
  In a (map A quizData) -> a <> "undefined".
Proof.
  assert (H : forallb (fun a => negb (a =? "undefined")%string) (map A quizData) = true)
    by reflexivity.
  intros Hin Heq. rewrite forallb_forall in H. specialize (H a Hin).
  subst a. discriminate.
Qed.

Lemma array_get_In {T : Type} (a : list T) (i : Z) (x : T) :
  JS.array_get a i = Some x -> In x a.
Proof.
  unfold JS.array_get. destruct (i <? 0); [discriminate|]. apply nth_error_In.
Qed.

Lemma reachable_quizData_answer (st : State) :
  reachable quizData st ->
  A (gameData st) <> "" /\ A (gameData st) <> "undefined".
Proof.
  intros Hreach.
  destruct (reachable_gameData quizData st Hreach) as [->|[i [entry [Hget ->]]]].
  - split; discriminate.
  - apply array_get_In in Hget. simpl.
    assert (Hin : In (A entry) (map A quizData)) by now apply in_map.
    split; [now apply quizData_answers_nonempty
           | now apply quizData_answers_not_undefined].
Qed.

(** C7, evaluated where the code departs from it.  On a corpus with an
    entry whose answer is the word "undefined", after the click that
    displays the entry and the choice of its answer, the selected
    answer is not empty and equals the current correct answer, and the
    message on display is "You selected undefined- you undefined", not
    "You selected undefined- you win". *)
Lemma literal_undefined_message :
  let corpus := [ {| Q := "Which word stands for a missing value in JavaScript";
                       A := "undefined" |};
                    {| Q := "What is the capital of New Zealand";
                       A := "Wellington" |} ] in
  let literal := {| value := "undefined"; label := "undefined" |} in
  forallb (possible corpus) [Click 0; Change literal] = true /\
  exists st,
    run corpus init [Click 0; Change literal] = JS.Normal st /\
    reachable corpus st /\
    answer st <> "" /\
    answer st = A (gameData st) /\
    message st = "You selected undefined- you undefined" /\
    message st <> "You selected " ++ answer st ++ "- you win".
Proof.
  intros corpus literal. split; [reflexivity|].
  eexists. split; [reflexivity|]. split.
  - apply (reachable_run corpus [Click 0; Change literal] init);
      [apply reach_init | reflexivity | reflexivity].
  - simpl. repeat split; discriminate.
Qed.

(** C8.  In every state the page can reach on the shipped corpus, the
    evaluation of the empty choice is "win" only if the current correct
    answer is empty as well; the current correct answer is never empty
    (no answer of the corpus is, nor is "Start"), so the empty choice is
    evaluated to "lose". *)
Theorem empty_choice_never_wins (st : State) :
  reachable quizData st ->
  (winLoseCalc (gameData st) "" = Some "win" <-> A (gameData st) = "") /\
  Forall (fun entry => A entry <> "") quizData /\
  A (gameData st) <> "" /\
  winLoseCalc (gameData st) "" = Some "lose" /\
  dispatch quizData st (Change {| value := ""; label := "" |}) =
    JS.Normal {| gameData := gameData st; answer := ""; winlose := "- you lose" |}.
Proof.
  intros Hreach.
  destruct (reachable_quizData_answer st Hreach) as [Hne _].
  assert (Hcalc : winLoseCalc (gameData st) "" = Some "lose").
  { unfold winLoseCalc. simpl.
    destruct (A (gameData st)) eqn:HA; [congruence | reflexivity]. }
  split; [|split; [|split; [|split]]].
  - rewrite Hcalc. split; [discriminate | contradiction].
  - apply Forall_forall. intros entry Hin.
    apply quizData_answers_nonempty. now apply in_map.
  - exact Hne.
  - exact Hcalc.
  - rewrite dispatch_Change. simpl value. now rewrite Hcalc.
Qed.

Lemma empty_choice_never_wins_witness :
  dispatch quizData
           {| gameData := {| Q := "What is New Zealand’s official name in Maori";
                             A := "Aotearoa" |};
              answer := ""; winlose := "" |}
           (Change {| value := ""; label := "" |}) =
  JS.Normal {| gameData := {| Q := "What is New Zealand’s official name in Maori";
                              A := "Aotearoa" |};
               answer := ""; winlose := "- you lose" |}.
Proof.
  apply (empty_choice_never_wins
           {| gameData := {| Q := "What is New Zealand’s official name in Maori";
                             A := "Aotearoa" |};
              answer := ""; winlose := "" |}).
  apply (reachable_run quizData [Click (1 # 28)] init).
  - apply reach_init.
  - reflexivity.
  - reflexivity.
Defined.

(** C9, evaluated where the code departs from it.  On a corpus with an
    entry whose answer is the word "undefined", with that entry on
    display, the wrong answer "Wellington" stores "- you lose", and the
    correct answer chosen right after it stores "- you undefined": the
    result does not flip to "win".  The overwriting itself holds there
    as everywhere: the two choices in a row leave the state the second
    one alone leaves. *)
Lemma literal_undefined_does_not_flip :
  let corpus := [ {| Q := "Which word stands for a missing value in JavaScript";
                       A := "undefined" |};
                    {| Q := "What is the capital of New Zealand";
                       A := "Wellington" |} ] in
  let literal := {| value := "undefined"; label := "undefined" |} in
  let wrong := {| value := "Wellington"; label := "Wellington" |} in
  let question :=
    {| gameData := {| Q := "Which word stands for a missing value in JavaScript";
                      A := "undefined" |};
       answer := ""; winlose := "" |} in
  forallb (possible corpus) [Click 0; Change wrong; Change literal] = true /\
  run corpus init [Click 0] = JS.Normal question /\
  run corpus question [Change wrong] =
    JS.Normal {| gameData := gameData question; answer := "Wellington";
                 winlose := "- you lose" |} /\
  run corpus question [Change wrong; Change literal] =
    JS.Normal {| gameData := gameData question; answer := "undefined";
                 winlose := "- you undefined" |} /\
  run corpus question [Change wrong; Change literal] =
    run corpus question [Change literal].
Proof. repeat split. Qed.

(** C10.  In every reachable state, whatever the corpus, the question
    and the correct answer held by the state are either the pair
    "Start", "Start" or the [Q] and the [A] of one entry of the corpus,
    read at one index; and selecting an answer, whatever the option,
    leaves the pair as it was. *)
Theorem gameData_from_one_entry (allData : list QuizEntry) (st : State) :
  reachable allData st ->
  (gameData st = {| Q := "Start"; A := "Start" |} \/
   exists i entry,
     JS.array_get allData i = Some entry /\
     Q (gameData st) = Q entry /\ A (gameData st) = A entry) /\
  (forall e, exists st',
      dispatch allData st (Change e) = JS.Normal st' /\
      gameData st' = gameData st).
Proof.
  intros Hreach. split.
  - destruct (reachable_gameData allData st Hreach) as [H|[i [entry [Hget H]]]].
    + now left.
    + right. exists i, entry. rewrite H. now repeat split.
  - intros e. eexists. split; [apply dispatch_Change | reflexivity].
Qed.

Lemma gameData_from_one_entry_witness :
  let st := {| gameData := {| Q := "What is New Zealand’s official name in Maori";
                              A := "Aotearoa" |};
               answer := "Kiwi"; winlose := "- you lose" |} in
  (gameData st = {| Q := "Start"; A := "Start" |} \/
   exists i entry,
     JS.array_get quizData i = Some entry /\
     Q (gameData st) = Q entry /\ A (gameData st) = A entry) /\
  (forall e, exists st',
      dispatch quizData st (Change e) = JS.Normal st' /\
      gameData st' = gameData st).
Proof.
  intros st.
  apply (gameData_from_one_entry quizData st).
  apply (reachable_run quizData
           [Click (1 # 28); Change {| value := "Kiwi"; label := "Kiwi" |}] init).
  - apply reach_init.
  - reflexivity.
  - reflexivity.
Defined.


(* ================================================================= *)
(** * Further properties *)

(** ** Which draws give which index *)

Lemma Qfloor_eq_iff (x : QArith_base.Q) (i : Z) :
  Qfloor x = i <-> (inject_Z i <= x /\ x < inject_Z (i + 1))%Q.
Proof.
  split.
  - intros <-. split; [apply Qfloor_le | apply Qlt_floor].
  - intros [Hlo Hhi].
    assert (H1 : i <= Qfloor x).
    { apply Qfloor_resp_le in Hlo. now rewrite Qfloor_Z in Hlo. }
    assert (H2 : Qfloor x < i + 1).
    { rewrite Zlt_Qlt. eapply Qle_lt_trans; [apply Qfloor_le | exact Hhi]. }
    lia.
Qed.

Lemma inject_Z_pos (L : Z) : 1 <= L -> (0 < inject_Z L)%Q.
Proof. intros HL. unfold Qlt, inject_Z; simpl; lia. Qed.

(** Below 2^53 the binary64 values include the integers, so rounding
    does not cross one: the rounded number stays between the integer
    part of the number and the next integer. *)
Lemma round_between_integers (x : QArith_base.Q) :
  (0 < x)%Q -> (x < pow2 53)%Q ->
  (inject_Z (Qfloor x) <= round x /\ round x <= inject_Z (Qfloor x + 1))%Q.
Proof.
  intros Hx Hx53.
  destruct (ilog2_spec x Hx) as [Hlo _].
  assert (He : ilog2 x < 53).
  { apply pow2_lt_inv. eapply Qle_lt_trans; [exact Hlo | exact Hx53]. }
  assert (Hk : quantum x <= 0) by (unfold quantum; lia).
  rewrite (round_pos x Hx).
  set (k := quantum x) in *. set (M := 2 ^ (- k)).
  assert (HM : (pow2 (- k) == inject_Z M)%Q) by (apply pow2_Z; lia).
  assert (Hone : (pow2 k * inject_Z M == 1)%Q).
  { rewrite <- HM, <- pow2_plus. replace (k + - k) with 0 by lia. reflexivity. }
  assert (Hp : (0 < pow2 k)%Q) by apply pow2_pos.
  assert (Hdiv : (x / pow2 k == x * inject_Z M)%Q).
  { apply Qmult_inj_r with (pow2 k).
    - intros E. rewrite E in Hp. now apply Qlt_irrefl in Hp.
    - rewrite (Qdiv_mult_cancel x _ Hp).
      rewrite <- Qmult_assoc, (Qmult_comm (inject_Z M)), Hone. ring. }
  assert (HMpos : (0 < inject_Z M)%Q) by (rewrite <- HM; apply pow2_pos).
  destruct (nearest_even_bounds (x / pow2 k)) as [[Hn1 Hn2] _].
  set (n := nearest_even (x / pow2 k)) in *.
  pose proof (Qfloor_le x) as HF1. pose proof (Qlt_floor x) as HF2.
  set (F := Qfloor x) in *.
  assert (Hlow : F * M <= Qfloor (x / pow2 k)).
  { assert (H : (inject_Z (F * M) <= x / pow2 k)%Q).
    { rewrite Hdiv, inject_Z_mult.
      apply Qmult_le_compat_r; [exact HF1 | now apply Qlt_le_weak]. }
    apply Qfloor_resp_le in H. now rewrite Qfloor_Z in H. }
  assert (Hhigh : Qfloor (x / pow2 k) < (F + 1) * M).
  { rewrite Zlt_Qlt. eapply Qle_lt_trans; [apply Qfloor_le|].
    rewrite Hdiv, inject_Z_mult. now apply Qmult_lt_compat_r. }
  assert (Hback : forall z : Z, (inject_Z (z * M) * pow2 k == inject_Z z)%Q).
  { intros z. rewrite inject_Z_mult, <- Qmult_assoc, (Qmult_comm (inject_Z M)), Hone.
    ring. }
  split.
  - rewrite <- (Hback F).
    apply Qmult_le_compat_r; [|now apply Qlt_le_weak]. rewrite <- Zle_Qle. lia.
  - rewrite <- (Hback (F + 1)).
    apply Qmult_le_compat_r; [|now apply Qlt_le_weak]. rewrite <- Zle_Qle. lia.
Qed.

(** X1.  The rounding of the product can move the index up by one and
    never down: for a length between 1 and 2^53 and a draw in [0, 1),
    [Random] returns the integer part of the exact product of the
    binary64 draw by the length, or the integer after it, and stays
    below the length. *)
Theorem Random_exact_or_next (rnd : QArith_base.Q) (L : Z) :
  1 <= L <= 2 ^ 53 -> (0 <= rnd)%Q -> (rnd < 1)%Q ->
  let exact := Qfloor (JS.Math_random rnd * inject_Z L) in
  exact <= Random rnd L <= exact + 1 /\ Random rnd L <= L - 1.
Proof.
  intros [HL HL53] H0 H1 exact.
  split; [|pose proof (Random_bounds rnd L H0 H1 HL); lia].
  subst exact. rewrite Random_unfold. unfold JS.Math_random.
  destruct (truncate_below_one rnd H0 H1) as [Hd0 [_ Hd1]].
  set (d := truncate rnd) in *. set (x := (d * inject_Z L)%Q).
  assert (HLq : (1 <= inject_Z L)%Q) by (rewrite <- (Zle_Qle 1); exact HL).
  assert (Hx1 : (x <= (1 - pow2 (-53)) * inject_Z L)%Q)
    by (apply Qmult_le_compat_r; lra).
  assert (Hx0 : (0 <= x)%Q) by (apply Qmult_le_0_compat; lra).
  destruct (Qnum x) eqn:Hn.
  - unfold round. rewrite Hn.
    assert (HF : Qfloor x = 0).
    { apply Qfloor_eq_iff. rewrite (Qnum_zero x Hn).
      split; [discriminate | vm_compute; reflexivity]. }
    rewrite HF. change (Qfloor 0%Q) with 0. lia.
  - assert (Hx : (0 < x)%Q) by (apply Qnum_pos; lia).
    assert (Hx53 : (x < pow2 53)%Q).
    { assert (Hu : (pow2 (-53) == 1 # 9007199254740992)%Q) by reflexivity.
      rewrite Hu in Hx1. rewrite (pow2_Z 53) by lia.
      assert (HL' : (inject_Z L <= inject_Z (2 ^ 53))%Q) by now rewrite <- Zle_Qle.
      lra. }
    destruct (round_between_integers x Hx Hx53) as [Hlo Hhi].
    apply Qfloor_resp_le in Hlo, Hhi. rewrite Qfloor_Z in Hlo, Hhi. lia.
  - exfalso.
    assert ((x < 0)%Q) by (destruct x; unfold Qlt; simpl in *; subst; lia).
    lra.
Qed.

Lemma Random_exact_or_next_witness :
  let exact :=
    Qfloor (JS.Math_random (3699385408197193 # 4503599627370496) * inject_Z 28) in
  exact <= Random (3699385408197193 # 4503599627370496) 28 <= exact + 1 /\
  Random (3699385408197193 # 4503599627370496) 28 <= 28 - 1.
Proof.
  apply (Random_exact_or_next (3699385408197193 # 4503599627370496) 28).
  - lia.
  - unfold Qle; simpl; lia.
  - unfold Qlt; simpl; lia.
Defined.

(** The draw half way between [i / L] and [(i + 1) / L] gives the
    index [i]: the two roundings move the product by far less than a
    half as long as the length is an array length. *)
Lemma Random_reaches (L i : Z) :
  0 <= i < L -> L <= 2 ^ 32 ->
  (0 <= inject_Z (2 * i + 1) / inject_Z (2 * L))%Q /\
  (inject_Z (2 * i + 1) / inject_Z (2 * L) < 1)%Q /\
  Random (inject_Z (2 * i + 1) / inject_Z (2 * L)) L = i.
Proof.
  intros Hi HL32. assert (HL : 1 <= L) by lia.
  assert (H2L : (0 < inject_Z (2 * L))%Q) by (apply inject_Z_pos; lia).
  set (rnd := (inject_Z (2 * i + 1) / inject_Z (2 * L))%Q).
  assert (Hrnd0 : (0 < rnd)%Q).
  { apply Qlt_shift_div_l; [exact H2L|]. rewrite Qmult_0_l.
    rewrite <- (Zlt_Qlt 0). lia. }
  assert (Hrnd1 : (rnd < 1)%Q).
  { apply Qlt_shift_div_r; [exact H2L|]. rewrite Qmult_1_l.
    rewrite <- Zlt_Qlt. lia. }
  split; [now apply Qlt_le_weak|]. split; [exact Hrnd1|].
  rewrite Random_unfold. apply Qfloor_eq_iff.
  assert (HLq : (0 < inject_Z L)%Q) by now apply inject_Z_pos.
  assert (Hmid : (rnd * inject_Z L == inject_Z i + (1 # 2))%Q).
  { unfold rnd. rewrite !inject_Z_mult, inject_Z_plus, inject_Z_mult.
    change (inject_Z 2) with 2%Q. change (inject_Z 1) with 1%Q.
    field. intros E. rewrite E in HLq. now apply Qlt_irrefl in HLq. }
  destruct (truncate_error rnd Hrnd0) as [_ [Hd1 Hd2]].
  pose proof (quantum_bound rnd Hrnd0) as Hq.
  set (d := truncate rnd) in *. set (q := pow2 (quantum rnd)) in *.
  assert (Hu2 : (pow2 (-52) == 1 # 4503599627370496)%Q) by reflexivity.
  assert (Hs : (pow2 (-1074) < 1 # 81129638414606681695789005144064)%Q)
    by (vm_compute; reflexivity).
  pose proof (pow2_pos (-1074)) as Hs0.
  rewrite Hu2 in Hq. set (s := pow2 (-1074)) in *.
  assert (Hx1 : (d * inject_Z L <= rnd * inject_Z L)%Q)
    by (apply Qmult_le_compat_r; [exact Hd1 | now apply Qlt_le_weak]).
  assert (Hx2 : (rnd * inject_Z L - q * inject_Z L < d * inject_Z L)%Q).
  { setoid_replace (rnd * inject_Z L - q * inject_Z L)%Q
      with ((rnd - q) * inject_Z L)%Q by ring.
    now apply Qmult_lt_compat_r. }
  assert (Hq2 : (q * inject_Z L
                 <= ((1 # 4503599627370496)
                     + (1 # 81129638414606681695789005144064)) * inject_Z L)%Q).
  { apply Qmult_le_compat_r; [lra | now apply Qlt_le_weak]. }
  assert (HL32q : (inject_Z L <= 4294967296)%Q).
  { change 4294967296%Q with (inject_Z (2 ^ 32)). now rewrite <- Zle_Qle. }
  assert (Hiq : (0 <= inject_Z i /\ inject_Z i + 1 <= inject_Z L)%Q).
  { split.
    - rewrite <- (Zle_Qle 0). lia.
    - change 1%Q with (inject_Z 1). rewrite <- inject_Z_plus, <- Zle_Qle. lia. }
  set (x := (d * inject_Z L)%Q) in *.
  assert (Hx : (0 < x)%Q) by lra.
  destruct (round_error x Hx) as [_ [Hr1 Hr2]].
  pose proof (quantum_bound x Hx) as Hqx. rewrite Hu2 in Hqx. fold s in Hqx.
  set (ulp := pow2 (quantum x)) in *.
  rewrite inject_Z_plus. change (inject_Z 1) with 1%Q.
  split; lra.
Qed.

Lemma possible_Click_iff (allData : list QuizEntry) (rnd : QArith_base.Q) :
  possible allData (Click rnd) = true <-> (0 <= rnd)%Q /\ (rnd < 1)%Q.
Proof.
  simpl. rewrite andb_true_iff, negb_true_iff, Qle_bool_iff.
  split; intros [H0 H1]; split; try exact H0.
  - apply Qnot_le_lt. intros Hle. apply Qle_bool_iff in Hle. congruence.
  - destruct (Qle_bool 1 rnd) eqn:E; [|reflexivity].
    apply Qle_bool_iff in E. exfalso. exact (Qlt_not_le _ _ H1 E).
Qed.

Lemma array_get_Some {T : Type} (a : list T) (i : Z) (x : T) :
  JS.array_get a i = Some x -> 0 <= i < Z.of_nat (List.length a).
Proof.
  unfold JS.array_get. destruct (Z.ltb_spec i 0) as [|Hi]; [discriminate|].
  intros Hnth. assert (Hlt : (Z.to_nat i < List.length a)%nat).
  { apply nth_error_Some. congruence. }
  lia.
Qed.

(** X2.  No entry is out of reach of the button: for every entry of
    a corpus of at most 2^32 entries and every state there is a draw in
    [0, 1) on which the click puts that entry's question and answer on
    display. *)
Theorem every_entry_can_be_picked
        (allData : list QuizEntry) (entry : QuizEntry) (st : State) :
  Z.of_nat (List.length allData) <= 2 ^ 32 ->
  In entry allData ->
  exists rnd,
    possible allData (Click rnd) = true /\
    dispatch allData st (Click rnd) =
      JS.Normal {| gameData := {| Q := Q entry; A := A entry |};
                   answer := ""; winlose := "" |}.
Proof.
  intros Hlen Hin. apply In_nth_error in Hin. destruct Hin as [n Hn].
  assert (Hget : JS.array_get allData (Z.of_nat n) = Some entry).
  { unfold JS.array_get. destruct (Z.ltb_spec (Z.of_nat n) 0); [lia|].
    now rewrite Nat2Z.id. }
  pose proof (array_get_Some _ _ _ Hget) as Hrange.
  destruct (Random_reaches _ _ Hrange Hlen) as [H0 [H1 HR]].
  exists (inject_Z (2 * Z.of_nat n + 1)
          / inject_Z (2 * Z.of_nat (List.length allData)))%Q.
  split.
  - apply possible_Click_iff. now split.
  - apply dispatch_Click. now rewrite HR.
Qed.

Lemma every_entry_can_be_picked_witness :
  exists rnd,
    possible quizData (Click rnd) = true /\
    dispatch quizData init (Click rnd) =
      JS.Normal {| gameData := {| Q := "In which city can you find the Sky Tower";
                                  A := "Auckland" |};
                   answer := ""; winlose := "" |}.
Proof.
  apply (every_entry_can_be_picked quizData
           {| Q := "In which city can you find the Sky Tower"; A := "Auckland" |} init).
  - simpl. lia.
  - simpl. repeat (try (left; reflexivity); right).
Defined.

(** ** What the page never does *)

Lemma dispatch_possible_Normal (allData : list QuizEntry) (st : State) (ev : Event) :
  allData <> [] -> possible allData ev = true ->
  exists st', dispatch allData st ev = JS.Normal st'.
Proof.
  intros Hne Hposs. destruct ev as [rnd|e].
  - apply possible_Click_iff in Hposs. destruct Hposs as [H0 H1].
    destruct (array_get_Random rnd H0 H1 _ allData Hne) as [entry Hget].
    eexists. exact (dispatch_Click allData st rnd entry Hget).
  - eexists. apply dispatch_Change.
Qed.

(** X3.  With a non-empty corpus the page never fails: from every
    state, every sequence of events the page can produce (clicks with a
    draw in [0, 1), choices among the options of the dropdown) runs to
    a state, no handler of the sequence throws. *)
Theorem run_never_throws
        (allData : list QuizEntry) (evs : list Event) (st : State) :
  allData <> [] ->
  forallb (possible allData) evs = true ->
  exists st', run allData st evs = JS.Normal st'.
Proof.
  intros Hne. revert st. induction evs as [|ev evs IH]; intros st Hposs.
  - now exists st.
  - simpl in Hposs. apply andb_true_iff in Hposs. destruct Hposs as [Hev Hevs].
    destruct (dispatch_possible_Normal allData st ev Hne Hev) as [st1 Hd].
    simpl. rewrite Hd. now apply IH.
Qed.

Lemma run_never_throws_witness :
  exists st',
    run quizData init
        [Change {| value := "Kiwi"; label := "Kiwi" |}; Click (27 # 28);
         Change {| value := "Auckland"; label := "Auckland" |}; Click 0] =
    JS.Normal st'.
Proof.
  apply (run_never_throws quizData
           [Change {| value := "Kiwi"; label := "Kiwi" |}; Click (27 # 28);
            Change {| value := "Auckland"; label := "Auckland" |}; Click 0] init).
  - discriminate.
  - reflexivity.
Defined.

(** X4.  With an empty corpus the page stays where it starts: the
    dropdown has no option to choose, every click ends in the
    [TypeError], and the only reachable state is the initial one. *)
Theorem empty_corpus_stays_at_Start (st : State) :
  reachable [] st ->
  st = init /\
  sortedListAnswers [] = [] /\
  (forall ev, possible [] ev = true ->
              dispatch [] st ev = JS.Throw (JS.TypeError "Q")).
Proof.
  assert (Hev : forall s ev, possible [] ev = true ->
                             dispatch [] s ev = JS.Throw (JS.TypeError "Q")).
  { intros s [rnd|e] Hposs; [|discriminate].
    unfold dispatch, handler_of.
    rewrite (onClickHandlerNewGame_throws [] rnd []); [reflexivity|].
    unfold JS.array_get. destruct (_ <? 0); [reflexivity|].
    now destruct (Z.to_nat _). }
  intros Hreach. split; [|split; [reflexivity | apply Hev]].
  induction Hreach as [|s ev s' _ _ Hposs Hd]; [reflexivity|].
  rewrite (Hev s ev Hposs) in Hd. discriminate.
Qed.

Lemma empty_corpus_stays_at_Start_witness :
  init = init /\
  sortedListAnswers [] = [] /\
  (forall ev, possible [] ev = true ->
              dispatch [] init ev = JS.Throw (JS.TypeError "Q")).
Proof.
  apply (empty_corpus_stays_at_Start init). apply reach_init.
Defined.

(** ** The result of a choice and the message *)

(** X5.  Whatever the state and the option chosen, [handleAnswerChange]
    stores exactly one of three messages: "- you win" when the value is
    the correct answer and is not the literal "undefined", "- you lose"
    when it is neither, and "- you undefined" when it is that literal.
    So a question whose answer is the literal "undefined" cannot be
    won. *)
Theorem choice_has_three_outcomes
        (allData : list QuizEntry) (st : State) (e : AnswerOption) :
  exists st',
    dispatch allData st (Change e) = JS.Normal st' /\
    (winlose st' = "- you win" <->
     value e = A (gameData st) /\ value e <> "undefined") /\
    (winlose st' = "- you lose" <->
     value e <> A (gameData st) /\ value e <> "undefined") /\
    (winlose st' = "- you undefined" <-> value e = "undefined") /\
    (A (gameData st) = "undefined" -> winlose st' <> "- you win").
Proof.
  eexists. split; [apply dispatch_Change|]. simpl winlose.
  unfold winLoseCalc.
  destruct (String.eqb_spec (value e) "undefined") as [Hu|Hu];
    destruct (String.eqb_spec (value e) (A (gameData st))) as [Ha|Ha];
    simpl; repeat split; try tauto; try discriminate; try congruence;
    intros; try tauto; try discriminate; intuition congruence.
Qed.

(** X6.  In every reachable state, whatever the corpus, the message on
    display is empty when the selected answer is empty, and otherwise
    it is "You selected ", the selected answer, "- you " and the
    evaluation of that answer against the question now on display: the
    message never reports on a question other than the current one. *)
Theorem message_never_stale (allData : list QuizEntry) (st : State) :
  reachable allData st ->
  message st =
  if (answer st =? "")%string then ""
  else "You selected " ++ answer st ++ "- you " ++
       JS.ToString (winLoseCalc (gameData st) (answer st)).
Proof.
  intros Hreach. unfold message, JS.truthy.
  destruct (reachable_winlose allData st Hreach) as [[Ha Hw]|[_ Hw]].
  - now rewrite Ha.
  - destruct (answer st =? "")%string; [reflexivity|]. simpl. now rewrite Hw.
Qed.

Lemma message_never_stale_witness :
  message {| gameData := {| Q := "What is New Zealand’s official name in Maori";
                            A := "Aotearoa" |};
             answer := "Aotearoa"; winlose := "- you win" |} =
  "You selected Aotearoa- you win".
Proof.
  apply (message_never_stale quizData
           {| gameData := {| Q := "What is New Zealand’s official name in Maori";
                             A := "Aotearoa" |};
              answer := "Aotearoa"; winlose := "- you win" |}).
  apply (reachable_run quizData
           [Click (1 # 28);
            Change {| value := "Kiwi"; label := "Kiwi" |};
            Change {| value := "Aotearoa"; label := "Aotearoa" |}] init).
  - apply reach_init.
  - reflexivity.
  - reflexivity.
Defined.

(** X16.  A second choice overwrites the first: from every state,
    whatever the corpus, choosing [a] and then [b] leaves the state
    that choosing [b] alone leaves.  When the correct answer and [a]
    are not the literal "undefined" and [a] is not the correct answer,
    [a] stores "- you lose" and the correct answer chosen right after
    it stores "- you win", with no click on the button in between. *)
Theorem reselect_overwrite_law
        (allData : list QuizEntry) (st : State) (a b : AnswerOption) :
  run allData st [Change a; Change b] = run allData st [Change b] /\
  (value a <> A (gameData st) ->
   value a <> "undefined" ->
   A (gameData st) <> "undefined" ->
   value b = A (gameData st) ->
   run allData st [Change a] =
     JS.Normal {| gameData := gameData st; answer := value a;
                  winlose := "- you lose" |} /\
   run allData st [Change a; Change b] =
     JS.Normal {| gameData := gameData st; answer := A (gameData st);
                  winlose := "- you win" |}).
Proof.
  split; [reflexivity|].
  intros Hwrong Ha Hdef Hb.
  unfold run. rewrite !dispatch_Change. simpl gameData. simpl value.
  rewrite Hb, (winLoseCalc_defined _ _ Ha), (winLoseCalc_defined _ _ Hdef).
  apply String.eqb_neq in Hwrong. rewrite Hwrong, String.eqb_refl.
  split; reflexivity.
Qed.

Lemma reselect_overwrite_law_witness :
  let st := {| gameData := {| Q := "What is New Zealand’s official name in Maori";
                              A := "Aotearoa" |};
               answer := ""; winlose := "" |} in
  let kiwi := {| value := "Kiwi"; label := "Kiwi" |} in
  let aotearoa := {| value := "Aotearoa"; label := "Aotearoa" |} in
  run quizData st [Change kiwi] =
    JS.Normal {| gameData := gameData st; answer := "Kiwi"; winlose := "- you lose" |} /\
  run quizData st [Change kiwi; Change aotearoa] =
    JS.Normal {| gameData := gameData st; answer := "Aotearoa"; winlose := "- you win" |}.
Proof.
  intros st kiwi aotearoa.
  apply (proj2 (reselect_overwrite_law quizData st kiwi aotearoa)).
  - simpl. discriminate.
  - simpl. discriminate.
  - simpl. discriminate.
  - reflexivity.
Defined.

(** ** The dropdown *)

Lemma sortedListAnswers_In (corpus : list QuizEntry) (o : AnswerOption) :
  In o (sortedListAnswers corpus) <->
  exists entry, In entry corpus /\ o = {| value := A entry; label := A entry |}.
Proof.
  pose proof (sortedListAnswers_Permutation corpus) as Hperm. split.
  - intros Hin. apply (Permutation_in _ Hperm) in Hin.
    apply in_map_iff in Hin. destruct Hin as [entry [<- Hin]]. now exists entry.
  - intros [entry [Hin ->]].
    apply (Permutation_in _ (Permutation_sym Hperm)).
    apply in_map_iff. now exists entry.
Qed.

Lemma find_value_Some (corpus : list QuizEntry) (a : string) :
  In a (map A corpus) ->
  JSArray.find (fun opt => (value opt =? a)%string) (sortedListAnswers corpus) =
  Some {| value := a; label := a |}.
Proof.
  intros Hin. apply in_map_iff in Hin. destruct Hin as [entry [<- Hentry]].
  unfold JSArray.find.
  destruct (List.find _ (sortedListAnswers corpus)) as [o|] eqn:Hfind.
  - apply find_some in Hfind. destruct Hfind as [Ho Hv].
    apply String.eqb_eq in Hv.
    apply sortedListAnswers_In in Ho. destruct Ho as [entry' [_ ->]].
    simpl in Hv. now rewrite Hv.
  - exfalso.
    assert (Ho : In {| value := A entry; label := A entry |} (sortedListAnswers corpus))
      by (apply sortedListAnswers_In; now exists entry).
    apply (find_none _ _ Hfind) in Ho. simpl in Ho.
    now rewrite String.eqb_refl in Ho.
Qed.

Lemma find_value_None (corpus : list QuizEntry) (a : string) :
  ~ In a (map A corpus) ->
  JSArray.find (fun opt => (value opt =? a)%string) (sortedListAnswers corpus) = None.
Proof.
  intros Hnot. unfold JSArray.find.
  destruct (List.find _ (sortedListAnswers corpus)) as [o|] eqn:Hfind; [|reflexivity].
  exfalso. apply find_some in Hfind. destruct Hfind as [Ho Hv].
  apply String.eqb_eq in Hv.
  apply sortedListAnswers_In in Ho. destruct Ho as [entry [Hin ->]].
  simpl in Hv. apply Hnot. rewrite <- Hv. now apply in_map.
Qed.

(** X7.  In every reachable state, whatever the corpus, a selected
    answer that is not empty is shown by the dropdown: the value handed
    to it is the option whose value and label are the selected answer,
    and the placeholder is the selected answer.  When the selected
    answer is empty and no answer of the corpus is, the value handed to
    the dropdown is [null] and the placeholder is "Select an Answer". *)
Theorem Select_shows_selection (allData : list QuizEntry) (st : State) :
  reachable allData st ->
  (answer st <> "" ->
   Select_value (sortedListAnswers allData) st =
     Some {| value := answer st; label := answer st |} /\
   Select_placeholder st = answer st) /\
  (answer st = "" -> ~ In "" (map A allData) ->
   Select_value (sortedListAnswers allData) st = None /\
   Select_placeholder st = "Select an Answer").
Proof.
  intros Hreach. split.
  - intros Hne.
    destruct (reachable_winlose allData st Hreach) as [[Ha _]|[Hin _]];
      [contradiction|].
    unfold Select_value, Select_placeholder.
    rewrite (find_value_Some allData (answer st) Hin).
    apply String.eqb_neq in Hne. now rewrite Hne.
  - intros Ha Hnot. unfold Select_value, Select_placeholder.
    rewrite Ha. now rewrite (find_value_None allData "" Hnot).
Qed.

Lemma Select_shows_selection_witness :
  let st := {| gameData := {| Q := "What is New Zealand’s official name in Maori";
                              A := "Aotearoa" |};
               answer := "Auckland"; winlose := "- you lose" |} in
  Select_value (sortedListAnswers quizData) st =
    Some {| value := "Auckland"; label := "Auckland" |} /\
  Select_placeholder st = "Auckland".
Proof.
  intros st.
  apply (proj1 (Select_shows_selection quizData st
                  (reachable_run quizData
                     [Click (1 # 28);
                      Change {| value := "Auckland"; label := "Auckland" |}]
                     init st (reach_init quizData) eq_refl eq_refl))).
  simpl. discriminate.
Defined.

(** ** After the first click *)

Lemma run_gameData_from_entry (allData : list QuizEntry) (evs : list Event)
      (st st' : State) :
  (exists entry, In entry allData /\
                 gameData st = {| Q := Q entry; A := A entry |}) ->
  run allData st evs = JS.Normal st' ->
  exists entry, In entry allData /\
                gameData st' = {| Q := Q entry; A := A entry |}.
Proof.
  revert st. induction evs as [|ev evs IH]; intros st Hentry Hrun.
  - simpl in Hrun. now injection Hrun as <-.
  - simpl in Hrun.
    destruct (dispatch allData st ev) as [st1|err] eqn:Hd; [|discriminate].
    apply (IH st1); [|exact Hrun].
    destruct ev as [rnd|e].
    + apply dispatch_Click_inv in Hd. destruct Hd as [entry [Hget ->]].
      exists entry. split; [now apply array_get_In in Hget | reflexivity].
    + rewrite dispatch_Change in Hd. injection Hd as <-. exact Hentry.
Qed.

(** X8.  When no question of the corpus is "Start", the page never
    shows "Start" again once the button has been clicked: after a click
    that completes, whatever events follow, the heading is the question
    of an entry of the corpus and is not "Start". *)
Theorem never_back_to_Start
        (allData : list QuizEntry) (st0 st1 st : State)
        (rnd : QArith_base.Q) (evs : list Event) :
  Forall (fun entry => Q entry <> "Start") allData ->
  dispatch allData st0 (Click rnd) = JS.Normal st1 ->
  run allData st1 evs = JS.Normal st ->
  heading st <> "Start" /\
  exists entry, In entry allData /\ heading st = Q entry /\
                A (gameData st) = A entry.
Proof.
  intros Hno Hclick Hrun.
  apply dispatch_Click_inv in Hclick. destruct Hclick as [entry1 [Hget ->]].
  assert (Hfrom : exists entry, In entry allData /\
                                gameData st = {| Q := Q entry; A := A entry |}).
  { apply (run_gameData_from_entry allData evs _ st) in Hrun; [exact Hrun|].
    exists entry1. split; [now apply array_get_In in Hget | reflexivity]. }
  destruct Hfrom as [entry [Hin Hg]].
  unfold heading. rewrite Hg. simpl. split.
  - rewrite Forall_forall in Hno. now apply Hno.
  - now exists entry.
Qed.

Lemma never_back_to_Start_witness :
  heading {| gameData := {| Q := "What is New Zealand’s official name in Maori";
                            A := "Aotearoa" |};
             answer := "Kiwi"; winlose := "- you lose" |} <> "Start" /\
  exists entry,
    In entry quizData /\
    heading {| gameData := {| Q := "What is New Zealand’s official name in Maori";
                              A := "Aotearoa" |};
               answer := "Kiwi"; winlose := "- you lose" |} = Q entry /\
    A (gameData {| gameData := {| Q := "What is New Zealand’s official name in Maori";
                                  A := "Aotearoa" |};
                   answer := "Kiwi"; winlose := "- you lose" |}) = A entry.
Proof.
  apply (never_back_to_Start quizData init
           {| gameData := {| Q := "What is New Zealand’s official name in Maori";
                             A := "Aotearoa" |};
              answer := ""; winlose := "" |}
           _ (1 # 28) [Change {| value := "Kiwi"; label := "Kiwi" |}]).
  - repeat constructor; discriminate.
  - reflexivity.
  - reflexivity.
Defined.

(** X9.  Every question can be won unless its answer is the literal
    "undefined": after a click that completes, the dropdown offers the
    option whose value is the correct answer, and choosing it stores
    the correct answer and "- you win". *)
Theorem correct_answer_is_offered
        (allData : list QuizEntry) (st0 st : State) (rnd : QArith_base.Q) :
  dispatch allData st0 (Click rnd) = JS.Normal st ->
  let correct := {| value := A (gameData st); label := A (gameData st) |} in
  possible allData (Change correct) = true /\
  (A (gameData st) <> "undefined" ->
   dispatch allData st (Change correct) =
     JS.Normal {| gameData := gameData st; answer := A (gameData st);
                  winlose := "- you win" |}).
Proof.
  intros Hclick correct.
  apply dispatch_Click_inv in Hclick. destruct Hclick as [entry [Hget ->]].
  apply array_get_In in Hget. simpl in correct. split.
  - simpl. apply existsb_exists. exists correct. split.
    + apply sortedListAnswers_In. now exists entry.
    + unfold option_eqb. now rewrite !String.eqb_refl.
  - intros Hdef. simpl in Hdef. rewrite dispatch_Change. simpl.
    rewrite (winLoseCalc_defined _ _ Hdef). simpl. now rewrite String.eqb_refl.
Qed.

Lemma correct_answer_is_offered_witness :
  let st := {| gameData := {| Q := "What is New Zealand’s official name in Maori";
                              A := "Aotearoa" |};
               answer := ""; winlose := "" |} in
  let correct := {| value := A (gameData st); label := A (gameData st) |} in
  possible quizData (Change correct) = true /\
  (A (gameData st) <> "undefined" ->
   dispatch quizData st (Change correct) =
     JS.Normal {| gameData := gameData st; answer := A (gameData st);
                  winlose := "- you win" |}).
Proof.
  intros st.
  apply (correct_answer_is_offered quizData init st (1 # 28)).
  reflexivity.
Defined.

(** ** The order of the dropdown as a whole *)

Lemma JS_lt_iff (a b : string) : JS.lt a b = true <-> String_as_OT.lt a b.
Proof.
  rewrite <- String_as_OT.cmp_lt. unfold JS.lt, String.ltb, String_as_OT.cmp.
  destruct (String.compare a b); split; congruence.
Qed.

Lemma JS_lt_trans (a b c : string) :
  JS.lt a b = true -> JS.lt b c = true -> JS.lt a c = true.
Proof.
  rewrite !JS_lt_iff. apply String_as_OT.lt_trans.
Qed.

Lemma JS_le_cases (a b : string) :
  JS.le a b = true -> a = b \/ JS.lt a b = true.
Proof.
  unfold JS.le, JS.lt, String.ltb. rewrite (String.compare_antisym b a).
  destruct (String.compare a b) eqn:Hc; simpl; intros H; try discriminate.
  - left. now apply String.compare_eq_iff.
  - now right.
Qed.

Lemma JS_le_trans (a b c : string) :
  JS.le a b = true -> JS.le b c = true -> JS.le a c = true.
Proof.
  intros Hab Hbc.
  destruct (JS_le_cases a b Hab) as [->|Hlt1]; [exact Hbc|].
  destruct (JS_le_cases b c Hbc) as [<-|Hlt2]; [exact Hab|].
  apply (JS_gt_le c a). unfold JS.gt. exact (JS_lt_trans a b c Hlt1 Hlt2).
Qed.

Lemma JS_le_antisym (a b : string) :
  JS.le a b = true -> JS.le b a = true -> a = b.
Proof.
  intros Hab Hba.
  destruct (JS_le_cases a b Hab) as [|Hlt]; [assumption|].
  unfold JS.le in Hba. rewrite Hlt in Hba. discriminate.
Qed.

Lemma StronglySorted_nth {T : Type} (R : T -> T -> Prop) (l : list T)
      (i j : nat) (a b : T) :
  StronglySorted R l -> (i < j)%nat ->
  nth_error l i = Some a -> nth_error l j = Some b -> R a b.
Proof.
  intros Hs. revert i j. induction Hs as [|x l Hs IH Hall]; intros i j Hij Ha Hb.
  - destruct i; discriminate.
  - destruct j as [|j]; [lia|]. simpl in Hb. destruct i as [|i].
    + simpl in Ha. injection Ha as ->.
      rewrite Forall_forall in Hall. apply Hall. eapply nth_error_In, Hb.
    + simpl in Ha. apply (IH i j); [lia | exact Ha | exact Hb].
Qed.

Lemma StronglySorted_map {T U : Type} (f : T -> U) (R : U -> U -> Prop)
      (l : list T) :
  StronglySorted (fun a b => R (f a) (f b)) l -> StronglySorted R (map f l).
Proof.
  induction 1 as [|x l Hs IH Hall]; simpl; constructor.
  - exact IH.
  - apply Forall_map. exact Hall.
Qed.

Lemma Sorted_le_StronglySorted (l : list string) :
  Sorted (fun a b => JS.le a b = true) l ->
  StronglySorted (fun a b => JS.le a b = true) l.
Proof.
  apply Sorted_StronglySorted. intros a b c. apply JS_le_trans.
Qed.

Lemma sortedListAnswers_StronglySorted (corpus : list QuizEntry) :
  StronglySorted (fun a b => JS.le (value a) (value b) = true)
                 (sortedListAnswers corpus).
Proof.
  apply Sorted_StronglySorted.
  - intros a b c. apply JS_le_trans.
  - apply sortedListAnswers_Sorted.
Qed.

(** Two ascending lists of strings with the same elements are equal. *)
Lemma ascending_unique (l l' : list string) :
  StronglySorted (fun a b => JS.le a b = true) l ->
  StronglySorted (fun a b => JS.le a b = true) l' ->
  Permutation l l' -> l = l'.
Proof.
  intros Hs. revert l'. induction Hs as [|x t Hs IH Hall]; intros l' Hs' Hperm.
  - now apply Permutation_nil in Hperm.
  - destruct Hs' as [|y t' Hs' Hall'].
    + apply Permutation_sym, Permutation_nil in Hperm. discriminate.
    + assert (Hxy : x = y).
      { rewrite Forall_forall in Hall, Hall'.
        assert (Hx : In x (y :: t')) by (apply (Permutation_in _ Hperm); now left).
        assert (Hy : In y (x :: t))
          by (apply (Permutation_in _ (Permutation_sym Hperm)); now left).
        destruct Hx as [Hx|Hx]; [now symmetry|].
        destruct Hy as [Hy|Hy]; [assumption|].
        apply JS_le_antisym; [now apply Hall | now apply Hall']. }
      subst y. f_equal. apply IH; [exact Hs'|].
      now apply Permutation_cons_inv in Hperm.
Qed.

Lemma sortedListAnswers_from_values (corpus : list QuizEntry) :
  sortedListAnswers corpus =
  map (fun v => {| value := v; label := v |}) (map value (sortedListAnswers corpus)).
Proof.
  rewrite map_map. rewrite <- (map_id (sortedListAnswers corpus)) at 1.
  apply map_ext_in. intros o Ho.
  apply sortedListAnswers_In in Ho. now destruct Ho as [entry [_ ->]].
Qed.

Lemma sortedListAnswers_values_ascending (corpus : list QuizEntry) :
  StronglySorted (fun a b => JS.le a b = true) (map value (sortedListAnswers corpus)).
Proof.
  apply StronglySorted_map. apply sortedListAnswers_StronglySorted.
Qed.

(** X10.  The dropdown is ascending as a whole, not only between
    neighbours: whatever the corpus, an option that comes before
    another one in [sortedListAnswers] has a value [<=] the other's. *)
Theorem sortedListAnswers_ordered_throughout
        (corpus : list QuizEntry) (i j : nat) (a b : AnswerOption) :
  (i < j)%nat ->
  nth_error (sortedListAnswers corpus) i = Some a ->
  nth_error (sortedListAnswers corpus) j = Some b ->
  JS.le (value a) (value b) = true.
Proof.
  intros Hij Ha Hb.
  exact (StronglySorted_nth (fun a b => JS.le (value a) (value b) = true)
           _ i j a b (sortedListAnswers_StronglySorted corpus) Hij Ha Hb).
Qed.

Lemma sortedListAnswers_ordered_throughout_witness :
  JS.le "(+ Bonus point for his nationality) Abel Tasman, Dutch" "Wellington" = true.
Proof.
  apply (sortedListAnswers_ordered_throughout quizData 0 27
           {| value := "(+ Bonus point for his nationality) Abel Tasman, Dutch";
              label := "(+ Bonus point for his nationality) Abel Tasman, Dutch" |}
           {| value := "Wellington"; label := "Wellington" |}).
  - lia.
  - reflexivity.
  - reflexivity.
Defined.

(** X11.  The dropdown does not depend on the order of the corpus: two
    corpora with the same answers, counted with their repetitions, give
    the same list of options, so the place of an answer in the dropdown
    tells nothing about the place of its question in the corpus. *)
Theorem sortedListAnswers_order_independent (corpus corpus' : list QuizEntry) :
  Permutation (map A corpus) (map A corpus') ->
  sortedListAnswers corpus = sortedListAnswers corpus'.
Proof.
  intros Hperm.
  rewrite (sortedListAnswers_from_values corpus),
          (sortedListAnswers_from_values corpus').
  f_equal. apply ascending_unique.
  - apply sortedListAnswers_values_ascending.
  - apply sortedListAnswers_values_ascending.
  - eapply perm_trans; [apply sortedListAnswers_values|].
    eapply perm_trans; [exact Hperm|].
    apply Permutation_sym, sortedListAnswers_values.
Qed.

Lemma sortedListAnswers_order_independent_witness :
  sortedListAnswers [ {| Q := "2 + 2?"; A := "4" |};
                      {| Q := "Capital of France?"; A := "Paris" |} ] =
  sortedListAnswers [ {| Q := "Capital of France?"; A := "Paris" |};
                      {| Q := "2 + 2?"; A := "4" |} ].
Proof.
  apply (sortedListAnswers_order_independent
           [ {| Q := "2 + 2?"; A := "4" |};
             {| Q := "Capital of France?"; A := "Paris" |} ]
           [ {| Q := "Capital of France?"; A := "Paris" |};
             {| Q := "2 + 2?"; A := "4" |} ]).
  simpl. apply perm_swap.
Defined.

Lemma SortCompare_neg (p e : string) :
  (JSArray.SortCompare p e <? 0) = true -> JS.le p e = true.
Proof.
  unfold JSArray.SortCompare. intros H. apply (JS_gt_le e p). unfold JS.gt.
  destruct (JS.lt p e); [reflexivity|]. now destruct (JS.lt e p).
Qed.

Lemma SortCompare_nonneg (p e : string) :
  (JSArray.SortCompare p e <? 0) = false -> JS.le e p = true.
Proof.
  unfold JSArray.SortCompare, JS.le.
  destruct (JS.lt p e); [discriminate | reflexivity].
Qed.

(** X12.  The check of the test "answers are sorted alphabetically"
    holds for every corpus: the values of [sortedListAnswers], sorted
    again by [sort()] in its default order, are the list they were. *)
Theorem answers_are_sorted_alphabetically_holds (corpus : list QuizEntry) :
  answers_are_sorted_alphabetically corpus = true /\
  JS.Array_sort JSArray.SortCompare (map value (sortedListAnswers corpus)) =
  map value (sortedListAnswers corpus).
Proof.
  assert (H : map value (sortedListAnswers corpus) =
              JS.Array_sort JSArray.SortCompare (map value (sortedListAnswers corpus))).
  { apply ascending_unique.
    - apply sortedListAnswers_values_ascending.
    - apply Sorted_le_StronglySorted.
      apply Array_sort_Sorted; [apply SortCompare_neg | apply SortCompare_nonneg].
    - apply Permutation_sym, Array_sort_Permutation. }
  split; [|now symmetry].
  unfold answers_are_sorted_alphabetically.
  now destruct (list_eq_dec string_dec _ _).
Qed.

(** ** The uniqueness test and what it buys *)

Lemma existsb_eqb_In (x : string) (set : list string) :
  existsb (String.eqb x) set = true <-> In x set.
Proof.
  rewrite existsb_exists. split.
  - intros [y [Hin Heq]]. apply String.eqb_eq in Heq. now subst.
  - intros Hin. exists x. split; [exact Hin | apply String.eqb_refl].
Qed.

(** The loop behind [Set_spread], started from any set: it adds at most
    one element per element read, and exactly one per element read
    when, and only when, the elements read are distinct and new. *)
Lemma Set_spread_length_le (a set : list string) :
  (List.length
     (fold_left
        (fun set x => if existsb (String.eqb x) set then set else (set ++ [x])%list)
        a set)
   <= List.length set + List.length a)%nat.
Proof.
  revert set. induction a as [|x a IH]; intros set; simpl; [lia|].
  destruct (existsb (String.eqb x) set).
  - specialize (IH set). lia.
  - specialize (IH (set ++ [x])%list). rewrite length_app in IH. simpl in IH. lia.
Qed.

Lemma Set_spread_length_eq (a set : list string) :
  List.length
    (fold_left
       (fun set x => if existsb (String.eqb x) set then set else (set ++ [x])%list)
       a set)
  = (List.length set + List.length a)%nat <->
  NoDup a /\ (forall x, In x a -> ~ In x set).
Proof.
  revert set. induction a as [|x a IH]; intros set; simpl.
  - split; [intros _; split; [constructor | tauto] | lia].
  - destruct (existsb (String.eqb x) set) eqn:Hex.
    + apply existsb_eqb_In in Hex. split.
      * pose proof (Set_spread_length_le a set). lia.
      * intros [_ Hnot]. exfalso. apply (Hnot x); [now left | exact Hex].
    + assert (Hx : ~ In x set).
      { intros Hin. apply existsb_eqb_In in Hin. congruence. }
      replace (List.length set + S (List.length a))%nat
        with (List.length (set ++ [x]) + List.length a)%nat
        by (rewrite length_app; simpl; lia).
      rewrite IH. split.
      * intros [Hnd Hnot]. split.
        -- constructor; [|exact Hnd].
           intros Hin. apply (Hnot x Hin). apply in_or_app. right. now left.
        -- intros y [<-|Hy]; [exact Hx|].
           intros Hin. apply (Hnot y Hy). apply in_or_app. now left.
      * intros [Hnd Hnot]. inversion Hnd as [|x' a' Hxa Hnd']; subst. split.
        -- exact Hnd'.
        -- intros y Hy Hin. apply in_app_or in Hin. destruct Hin as [Hin|[<-|[]]].
           ++ apply (Hnot y); [now right | exact Hin].
           ++ contradiction.
Qed.

Lemma NoDup_map_injective {T U : Type} (f : T -> U) (l : list T) (x y : T) :
  NoDup (map f l) -> In x l -> In y l -> f x = f y -> x = y.
Proof.
  induction l as [|z l IH]; simpl; intros Hnd Hx Hy Hf; [contradiction|].
  inversion Hnd as [|? ? Hz Hnd']; subst.
  destruct Hx as [->|Hx], Hy as [->|Hy].
  - reflexivity.
  - exfalso. apply Hz. rewrite Hf. now apply in_map.
  - exfalso. apply Hz. rewrite <- Hf. now apply in_map.
  - now apply IH.
Qed.

Lemma Set_spread_length_NoDup (a : list string) :
  List.length a = List.length (JSArray.Set_spread a) <-> NoDup a.
Proof.
  unfold JSArray.Set_spread.
  pose proof (Set_spread_length_eq a []) as H. simpl in H.
  split.
  - intros Hlen. apply H. now symmetry.
  - intros Hnd. symmetry. apply H. split; [exact Hnd | tauto].
Qed.

(** X13.  The check of the test "questions are unique" holds exactly
    for the corpora in which no two entries carry the same question. *)
Theorem questions_are_unique_iff (corpus : list QuizEntry) :
  questions_are_unique corpus = true <-> NoDup (map Q corpus).
Proof.
  unfold questions_are_unique. rewrite Nat.eqb_eq.
  apply Set_spread_length_NoDup.
Qed.

(** X14.  On a corpus that passes the test "questions are unique" and
    has no question "Start", the question on display determines the
    answer it is scored against: two reachable states that show the
    same heading hold the same correct answer. *)
Theorem heading_determines_answer (allData : list QuizEntry) (st st' : State) :
  questions_are_unique allData = true ->
  Forall (fun entry => Q entry <> "Start") allData ->
  reachable allData st -> reachable allData st' ->
  heading st = heading st' ->
  A (gameData st) = A (gameData st').
Proof.
  intros Huniq Hno Hr Hr' Hhead. unfold heading in Hhead.
  unfold questions_are_unique in Huniq. rewrite Nat.eqb_eq in Huniq.
  apply Set_spread_length_NoDup in Huniq. rewrite Forall_forall in Hno.
  destruct (reachable_gameData allData st Hr) as [Hg|[i [e [Hget Hg]]]];
    destruct (reachable_gameData allData st' Hr') as [Hg'|[i' [e' [Hget' Hg']]]];
    rewrite Hg, Hg' in *; simpl in *.
  - reflexivity.
  - apply array_get_In in Hget'. exfalso. apply (Hno e' Hget'). now symmetry.
  - apply array_get_In in Hget. exfalso. now apply (Hno e Hget).
  - apply array_get_In in Hget, Hget'.
    now rewrite (NoDup_map_injective Q allData e e' Huniq Hget Hget' Hhead).
Qed.

Lemma heading_determines_answer_witness :
  A (gameData {| gameData := {| Q := "What is New Zealand’s official name in Maori";
                                A := "Aotearoa" |};
                 answer := ""; winlose := "" |}) =
  A (gameData {| gameData := {| Q := "What is New Zealand’s official name in Maori";
                                A := "Aotearoa" |};
                 answer := "Kiwi"; winlose := "- you lose" |}).
Proof.
  apply (heading_determines_answer quizData).
  - reflexivity.
  - repeat constructor; discriminate.
  - apply (reachable_run quizData [Click (1 # 28)] init);
      [apply reach_init | reflexivity | reflexivity].
  - apply (reachable_run quizData
             [Click (1 # 28); Change {| value := "Kiwi"; label := "Kiwi" |}] init);
      [apply reach_init | reflexivity | reflexivity].
  - reflexivity.
Defined.

(** ** The two stand-ins for the dropdown in the test suites *)

(** X15.  The [select] of Game.test.js and the one of
    GameMechanics.test.js agree on a value that some option carries:
    both pass the first such option to [handleAnswerChange].  On a
    value no option carries, as the empty value of the placeholder
    entry, they differ: the first calls the handler with [undefined],
    which throws the [TypeError] of reading [value] before any setter
    is called; the second calls nothing. *)
Theorem select_stand_ins
        (options : list AnswerOption) (gameData : QuizEntry)
        (target_value : string) (queue : list Update) :
  (forall opt,
      JSArray.find (fun o => (value o =? target_value)%string) options = Some opt ->
      value opt = target_value /\ In opt options /\
      Game_select_onChange options (call_handleAnswerChange gameData)
                           target_value queue =
        handleAnswerChange gameData opt queue /\
      GameMechanics_select_onChange options (call_handleAnswerChange gameData)
                                    target_value queue =
        handleAnswerChange gameData opt queue) /\
  ((forall opt, In opt options -> value opt <> target_value) ->
   Game_select_onChange options (call_handleAnswerChange gameData)
                        target_value queue =
     (JS.Throw (JS.TypeError "value"), queue) /\
   GameMechanics_select_onChange options (call_handleAnswerChange gameData)
                                 target_value queue =
     (JS.Normal tt, queue)).
Proof.
  unfold Game_select_onChange, GameMechanics_select_onChange, JSArray.find.
  split.
  - intros opt Hfind. rewrite Hfind. simpl.
    apply find_some in Hfind. destruct Hfind as [Hin Hv].
    apply String.eqb_eq in Hv. now repeat split.
  - intros Hnone.
    destruct (List.find _ options) as [opt|] eqn:Hfind; [|now split].
    apply find_some in Hfind. destruct Hfind as [Hin Hv].
    apply String.eqb_eq in Hv. now apply Hnone in Hin.
Qed.

Lemma select_stand_ins_witness :
  Game_select_onChange
    [ {| value := "4"; label := "4" |}; {| value := "Paris"; label := "Paris" |} ]
    (call_handleAnswerChange {| Q := "Capital of France?"; A := "Paris" |}) "" [] =
    (JS.Throw (JS.TypeError "value"), []) /\
  GameMechanics_select_onChange
    [ {| value := "4"; label := "4" |}; {| value := "Paris"; label := "Paris" |} ]
    (call_handleAnswerChange {| Q := "Capital of France?"; A := "Paris" |}) "" [] =
    (JS.Normal tt, []).
Proof.
  apply (proj2 (select_stand_ins
                  [ {| value := "4"; label := "4" |};
                    {| value := "Paris"; label := "Paris" |} ]
                  {| Q := "Capital of France?"; A := "Paris" |} "" [])).
  intros opt [<-|[<-|[]]]; discriminate.
Defined.

(** ** The draw is a binary64 value *)

Lemma ilog2_unique (y : QArith_base.Q) (a : Z) :
  (0 < y)%Q -> (pow2 a <= y)%Q -> (y < pow2 (a + 1))%Q -> ilog2 y = a.
Proof.
  intros Hy Hlo Hhi. destruct (ilog2_spec y Hy) as [Hlo' Hhi'].
  assert (H1 : ilog2 y < a + 1)
    by (apply pow2_lt_inv; eapply Qle_lt_trans; eassumption).
  assert (H2 : a < ilog2 y + 1)
    by (apply pow2_lt_inv; eapply Qle_lt_trans; eassumption).
  lia.
Qed.

(** What [Math.random()] returns is returned unchanged when it is drawn
    in its turn: the values of [Math_random] are binary64 values, and
    each of them is the value on some draw, itself. *)
Lemma Math_random_idempotent (rnd : QArith_base.Q) :
  (0 <= rnd)%Q ->
  (JS.Math_random (JS.Math_random rnd) == JS.Math_random rnd)%Q.
Proof.
  intros H0. unfold JS.Math_random.
  destruct (Qnum rnd) eqn:Hn.
  - assert (Ht : truncate rnd = 0%Q) by (unfold truncate; now rewrite Hn).
    rewrite Ht. reflexivity.
  - assert (Hx : (0 < rnd)%Q) by (apply Qnum_pos; lia).
    destruct (truncate_error rnd Hx) as [Ht0 [Ht1 _]].
    destruct (ilog2_spec rnd Hx) as [Hlo Hhi].
    rewrite (truncate_pos rnd Hx) in *.
    set (k := quantum rnd) in *. set (f := Qfloor (rnd / pow2 k)) in *.
    assert (Hp : (0 < pow2 k)%Q) by apply pow2_pos.
    destruct (Z.eq_dec f 0) as [Hf|Hf].
    + rewrite Hf.
      assert (Hz : Qnum (inject_Z 0 * pow2 k) = 0) by reflexivity.
      unfold truncate. rewrite Hz. change (inject_Z 0) with 0%Q.
      now rewrite Qmult_0_l.
    + assert (Hfpos : 1 <= f).
      { assert (0 <= f) by (apply Qfloor_nonneg, Qdiv_pos_nonneg; assumption). lia. }
      set (y := (inject_Z f * pow2 k)%Q) in *.
      assert (Hy : (0 < y)%Q).
      { unfold y. apply Qmult_lt_0_compat; [|exact Hp].
        rewrite <- (Zlt_Qlt 0). lia. }
      assert (Hke : k <= ilog2 rnd).
      { unfold k, quantum.
        destruct (Z.max_spec (ilog2 rnd - 52) (-1074)) as [[_ ->]|[_ ->]]; [|lia].
        assert (Hge : (pow2 (-1074) <= rnd)%Q).
        { apply Qle_trans with y; [|exact Ht1].
          unfold y. fold (quantum rnd) in k.
          assert (Hk : k = -1074 \/ k = ilog2 rnd - 52) by (unfold k, quantum; lia).
          rewrite <- (Qmult_1_l (pow2 (-1074))).
          apply Qle_trans with (1 * pow2 k)%Q.
          - apply Qmult_le_l; [reflexivity|]. apply pow2_le. unfold k, quantum. lia.
          - apply Qmult_le_compat_r; [|now apply Qlt_le_weak].
            change 1%Q with (inject_Z 1). rewrite <- Zle_Qle. exact Hfpos. }
        assert (-1074 < ilog2 rnd + 1)
          by (apply pow2_lt_inv; eapply Qle_lt_trans; eassumption).
        lia. }
      assert (Hpow : (pow2 (ilog2 rnd) == inject_Z (2 ^ (ilog2 rnd - k)) * pow2 k)%Q).
      { rewrite <- (pow2_Z (ilog2 rnd - k)) by lia. rewrite <- pow2_plus.
        now replace (ilog2 rnd - k + k) with (ilog2 rnd) by lia. }
      assert (Hylo : (pow2 (ilog2 rnd) <= y)%Q).
      { rewrite Hpow. unfold y.
        apply Qmult_le_compat_r; [|now apply Qlt_le_weak].
        rewrite <- Zle_Qle. unfold f.
        assert (H : (inject_Z (2 ^ (ilog2 rnd - k)) <= rnd / pow2 k)%Q).
        { apply Qle_shift_div_l; [exact Hp|]. now rewrite <- Hpow. }
        apply Qfloor_resp_le in H. now rewrite Qfloor_Z in H. }
      assert (Hyhi : (y < pow2 (ilog2 rnd + 1))%Q)
        by (eapply Qle_lt_trans; eassumption).
      assert (Hqy : quantum y = k).
      { unfold quantum at 1. rewrite (ilog2_unique y _ Hy Hylo Hyhi). reflexivity. }
      rewrite (truncate_pos y Hy), Hqy.
      assert (Hdiv : (y / pow2 k == inject_Z f)%Q).
      { unfold y. field. intros E. rewrite E in Hp. now apply Qlt_irrefl in Hp. }
      rewrite Hdiv, Qfloor_Z. reflexivity.
  - exfalso.
    assert ((rnd < 0)%Q) by (destruct rnd; unfold Qlt; simpl in *; subst; lia).
    lra.
Qed.

(** Two binary64 draws on which the rounded product is an integer that
    the exact product does not reach. *)
Example Random_rounds_up_to_23 :
  Random (3699385408197193 # 4503599627370496) 28 = 23 /\
  Qfloor ((3699385408197193 # 4503599627370496) * inject_Z 28) = 22.
Proof. split; reflexivity. Qed.

Example Random_rounds_up_to_1 :
  Random (2573485501354569 # 72057594037927936) 28 = 1 /\
  Qfloor ((2573485501354569 # 72057594037927936) * inject_Z 28) = 0.
Proof. split; reflexivity. Qed.
